(** * worker-logs: gateway, RPC entrypoint and per-tenant storage actor

    A shallow embedding of [src/index.ts] (the Hono gateway) and
    [src/rpc.ts] (the service-binding entrypoint) of the worker-logs
    service, with the properties of its specification proved over it.

    Conventions of the embedding.
    - A JavaScript string is a [string] holding its UTF-8 bytes.
    - A JavaScript number is [NaN] or an integer [Num z].  The numbers the
      gateway computes with are integers; the embedding is exact for
      magnitudes below 2^53, where the double-precision quotient of two
      integers rounds up to the same integer as the exact quotient and
      [String] prints all the digits.
    - A [URLSearchParams] object is the ordered list of its name/value
      pairs; a request to an actor carries that list, not the query string
      it is serialized to.
    - The values the TypeScript types promise are taken as such: a log has
      a string [timestamp], a body is the JSON its type describes.
    - Every [await] is an explicit node of a program tree ([Prog]); what the
      awaited call answers is chosen by the interpreter [run], so one
      definition of a handler serves both for the calls a handler makes
      under arbitrary answers and for runs against the storage actors.
      [Promise.all] starts its calls in array order and each call of the
      aggregated query is settled before the next is started: the calls go
      to different actors and only read.
    - Requests served concurrently are tasks ([Task]): what is left of
      each handler; a schedule advances them, in any order, from one
      [await] to the next ([execute]).
    - What lies outside the sources (the runtime, and the modules
      [utils.ts], [services/], [durable-objects/] of the repository) is a
      field of the class [Platform] or, for the storage actor, a definition
      marked as modelled from the spec.

    The file has two parts: the definitions, then the properties. *)

From Stdlib Require Import ZArith Lia Ascii String DecimalString Permutation Sorted.
From Stdlib Require Import DecimalPos DecimalFacts.
From stdpp Require Import base option list gmap strings fin_maps.

Local Open Scope string_scope.
Local Open Scope Z_scope.

(** ** JavaScript primitives used by the gateway *)

Module JS.

(** A number value: the integers and NaN. *)
Inductive number : Type :=
| NaN
| Num (z : Z).

Definition byte_of (c : ascii) : N := N_of_ascii c.

Definition is_digit (c : ascii) : bool :=
  ((48 <=? byte_of c) && (byte_of c <=? 57))%N.

Definition digit_value (c : ascii) : Z := Z.of_N (byte_of c) - 48.

(** One-byte white space and line terminators: TAB, LF, VT, FF, CR, SP. *)
Definition ws1 (c : ascii) : bool :=
  let n := byte_of c in
  ((9 <=? n) && (n <=? 13) || (n =? 32))%N.

(** U+00A0 (no-break space) in UTF-8. *)
Definition ws2 (c1 c2 : ascii) : bool :=
  ((byte_of c1 =? 194) && (byte_of c2 =? 160))%N.

(** The three-byte white space of ECMAScript: U+1680, U+2000..U+200A, U+2028,
    U+2029, U+202F, U+205F, U+3000 and U+FEFF. *)
Definition ws3 (c1 c2 c3 : ascii) : bool :=
  let a := byte_of c1 in
  let b := byte_of c2 in
  let c := byte_of c3 in
  (   (a =? 225) && (b =? 154) && (c =? 128)
   || (a =? 226) && (b =? 128) && ((128 <=? c) && (c <=? 138))
   || (a =? 226) && (b =? 128) && ((c =? 168) || (c =? 169) || (c =? 175))
   || (a =? 226) && (b =? 129) && (c =? 159)
   || (a =? 227) && (b =? 128) && (c =? 128)
   || (a =? 239) && (b =? 187) && (c =? 191))%N.

(** [TrimString(s, start)]: drop the leading white space. *)
Fixpoint trimStart (s : string) : string :=
  match s with
  | EmptyString => s
  | String c1 s1 =>
      if ws1 c1 then trimStart s1
      else
        match s1 with
        | EmptyString => s
        | String c2 s2 =>
            if ws2 c1 c2 then trimStart s2
            else
              match s2 with
              | EmptyString => s
              | String c3 s3 => if ws3 c1 c2 c3 then trimStart s3 else s
              end
        end
  end.

(** The value of the longest prefix of decimal digits, continuing [acc]. *)
Fixpoint digits_value (s : string) (acc : Z) : Z :=
  match s with
  | EmptyString => acc
  | String c s' =>
      if is_digit c then digits_value s' (10 * acc + digit_value c) else acc
  end.

Definition starts_with_digit (s : string) : bool :=
  match s with
  | EmptyString => false
  | String c _ => is_digit c
  end.

(** [parseInt(s, 10)]: trim, read an optional sign, read the digits; no digit
    gives NaN.  The value is the integer the digits denote: it is the number
    JavaScript computes when it is a safe integer; of a larger one JavaScript
    keeps the nearest double. *)
Definition parseInt (s : string) : number :=
  let t := trimStart s in
  let '(sign, rest) :=
    match t with
    | String "-"%char r => (-1, r)
    | String "+"%char r => (1, r)
    | _ => (1, t)
    end in
  if starts_with_digit rest then Num (sign * digits_value rest 0) else NaN.

Definition is_hex_digit (c : ascii) : bool :=
  let n := byte_of c in
  (is_digit c || (65 <=? n) && (n <=? 70) || (97 <=? n) && (n <=? 102))%N.

Definition hex_digit_value (c : ascii) : Z :=
  let n := Z.of_N (byte_of c) in
  if is_digit c then n - 48 else if n <=? 70 then n - 55 else n - 87.

Fixpoint hex_digits_value (s : string) (acc : Z) : Z :=
  match s with
  | EmptyString => acc
  | String c s' =>
      if is_hex_digit c then hex_digits_value s' (16 * acc + hex_digit_value c)
      else acc
  end.

(** [parseInt(s)] without a radix: as [parseInt(s, 10)], except that a
    [0x] or [0X] after the sign switches to hexadecimal digits. *)
Definition parseInt_auto (s : string) : number :=
  let t := trimStart s in
  let '(sign, rest) :=
    match t with
    | String "-"%char r => (-1, r)
    | String "+"%char r => (1, r)
    | _ => (1, t)
    end in
  match rest with
  | String "0"%char (String x hex) =>
      if (Ascii.eqb x "x" || Ascii.eqb x "X")%char then
        match hex with
        | String c _ =>
            if is_hex_digit c then Num (sign * hex_digits_value hex 0) else NaN
        | EmptyString => NaN
        end
      else Num (sign * digits_value rest 0)
  | _ => if starts_with_digit rest then Num (sign * digits_value rest 0) else NaN
  end.

(** [String(x)] of a number: NaN, or all the digits of an integer, as
    JavaScript prints a safe integer (from 10^21 on it prints an
    exponent). *)
Definition String_ (x : number) : string :=
  match x with
  | NaN => "NaN"
  | Num z => NilZero.string_of_int (Z.to_int z)
  end.

(** [Math.max(a, b)]: NaN when either argument is. *)
Definition Math_max (a b : number) : number :=
  match a, b with
  | Num x, Num y => Num (Z.max x y)
  | _, _ => NaN
  end.

(** [Math.ceil(x / n)] for a positive integer divisor [n]: the quotient
    rounded towards plus infinity, which is what JavaScript computes of a
    safe integer [x]: the double nearest to the quotient lies on the same
    side of every integer as the quotient itself. *)
Definition Math_ceil_div (x : number) (n : Z) : number :=
  match x with
  | NaN => NaN
  | Num z => Num (- ((- z) / n))
  end.

(** [arr.slice(0, end)]: a NaN end counts as 0, a negative end counts from
    the end of the array. *)
Definition slice0 {A} (arr : list A) (e : number) : list A :=
  match e with
  | NaN => []
  | Num z =>
      if z <? 0 then take (Z.to_nat (Z.max (Z.of_nat (length arr) + z) 0)) arr
      else take (Z.to_nat z) arr
  end.

(** [Array.prototype.sort(cmp)] is a stable sort: [insert_sorted] puts [x],
    which precedes every element of [l] in the array, before the first
    element it does not have to follow ([cmp x y <= 0]). *)
Fixpoint insert_sorted {A} (cmp : A -> A -> Z) (x : A) (l : list A) : list A :=
  match l with
  | [] => [x]
  | y :: l' => if cmp x y <=? 0 then x :: l else y :: insert_sorted cmp x l'
  end.

Fixpoint sort {A} (cmp : A -> A -> Z) (arr : list A) : list A :=
  match arr with
  | [] => []
  | x :: l => insert_sorted cmp x (sort cmp l)
  end.

(** *** URLSearchParams *)

Definition URLSearchParams : Type := list (string * string).

Definition has (name : string) (p : URLSearchParams) : bool :=
  existsb (fun kv => String.eqb (fst kv) name) p.

Fixpoint get (name : string) (p : URLSearchParams) : option string :=
  match p with
  | [] => None
  | (k, v) :: p' => if String.eqb k name then Some v else get name p'
  end.

Definition getAll (name : string) (p : URLSearchParams) : list string :=
  map snd (List.filter (fun kv => String.eqb (fst kv) name) p).

(** [delete(name)] removes every pair of that name. *)
Definition delete_ (name : string) (p : URLSearchParams) : URLSearchParams :=
  List.filter (fun kv => negb (String.eqb (fst kv) name)) p.

(** [set(name, value)]: the first pair of that name takes the value and the
    others are removed; without such a pair, one is appended. *)
Fixpoint set (name value : string) (p : URLSearchParams) : URLSearchParams :=
  match p with
  | [] => [(name, value)]
  | (k, v) :: p' =>
      if String.eqb k name then (name, value) :: delete_ name p'
      else (k, v) :: set name value p'
  end.

End JS.


(** ** Data model *)

(** A log as a caller submits it.  The literals of [rpc.ts] give the fields
    [level], [message] and [context]; [request_id] is the optional
    correlation key.  The level is validated by the storage actor, so it is
    an arbitrary string here. *)
Record LogInput : Type := mkLogInput {
  in_level : string;
  in_message : string;
  in_context : option string;
  in_request_id : option string;
}.

(** A row of the [logs] table. *)
Record LogEntry : Type := mkLogEntry {
  id : string;
  timestamp : string;
  level : string;
  message : string;
  context : option string;
  request_id : option string;
}.

(** [{ ...entry, app_id: id }]. *)
Record AggregatedLogEntry : Type := mkAggregated {
  entry : LogEntry;
  app_id : string;
}.

(** A row of the [health_checks] table. *)
Record HealthCheckResult : Type := mkHealth {
  h_id : string;
  h_url : string;
  h_status : option Z;
  h_latency_ms : option Z;
  h_checked_at : string;
}.

(** [{ level, count }], an element of a pre-aggregated batch. *)
Record LevelCount : Type := mkLevelCount {
  lc_level : string;
  lc_count : nat;
}.

(** The error codes the gateway names, and the validation error of the
    storage actor. *)
Inductive ErrorCode : Type :=
| INTERNAL_ERROR
| UNAUTHORIZED
| BAD_REQUEST
| NOT_FOUND
| VALIDATION_ERROR
| STORAGE_ERROR.

(** The [Ok]/[Err] result format: [{ ok: true, data }] or
    [{ ok: false, error: { code, message } }]. *)
Inductive Result (A : Type) : Type :=
| Ok (data : A)
| Err (code : ErrorCode) (message : string).
Arguments Ok {A} data.
Arguments Err {A} code message.

Definition ok {A} (r : Result A) : bool :=
  match r with Ok _ => true | Err _ _ => false end.

(** What a storage actor answers in [data]. *)
Inductive DOData : Type :=
| DEntry (e : LogEntry)
| DEntries (l : list LogEntry)
| DCount (count : nat)
| DDeleted (deleted : nat)
| DOpaque (text : string).

Definition DOJson : Type := Result DOData.

(** A value of a registration record. *)
Inductive JSValue : Type :=
| VStr (s : string)
| VStrs (l : list string).

(** A registration as the registry returns it: a JavaScript object, a finite
    map from property names to values. *)
Abbreviation AppObject := (gmap string JSValue).

(** The body of [POST /stats] of a storage actor. *)
Inductive StatsBody : Type :=
| StatsLevel (level : string)
| StatsCounts (counts : list LevelCount).

(** The body of [POST /logs] of the gateway: ['logs' in body] or not. *)
Inductive LogsBody : Type :=
| Single (input : LogInput)
| Batch (logs : list LogInput).

(** The requests the gateway sends to a storage actor. *)
Inductive DORequest : Type :=
| PostLog (body : LogInput)
| PostLogs (logs : list LogInput)
| PostStats (body : StatsBody)
| GetLogs (search : JS.URLSearchParams)
| GetStats (days : JS.number)
| PostPrune (before : option string)
| PostHealthUrls (urls : list string).

(** The calls on the KV namespace: the registry service and the KV-backed
    statistics service. *)
Inductive KVCall : Type :=
| ListApps
| GetApp (appId : string)
| DeleteApp (appId : string)
| IncrementStats (appId level : string)
| IncrementStatsBatch (appId : string) (counts : list LevelCount).

Definition KVAnswer (c : KVCall) : Type :=
  match c with
  | ListApps => Result (list string)
  | GetApp _ => Result (option AppObject)
  | DeleteApp _ => Result string
  | IncrementStats _ _ => unit
  | IncrementStatsBatch _ _ => unit
  end.

(** The bindings of the worker: whether [env.LOGS_KV] is configured. *)
Record Env : Type := mkEnv {
  LOGS_KV : bool;
}.

(** The JSON body of a gateway response. *)
Inductive Body : Type :=
| Forwarded (json : DOJson)
| OkLogs (entries : list AggregatedLogEntry)
| OkApp (safeData : AppObject)
| OkDeleted (data : string)
| Failed (code : ErrorCode) (message : string).

Record Response : Type := mkResponse {
  status : Z;
  body : Body;
}.

(** [c.json(body)] and [c.json(body, status)]. *)
Definition c_json (b : Body) : Response := mkResponse 200 b.
Definition c_json_status (b : Body) (st : Z) : Response := mkResponse st b.

(** Truthiness of an optional string: [undefined] and [''] are falsy. *)
Definition truthy (s : option string) : option string :=
  match s with
  | Some s' => if String.eqb s' "" then None else Some s'
  | None => None
  end.

(** ** Programs with awaits *)

(** How an awaited promise settles. *)
Inductive Outcome (R : Type) : Type :=
| Fulfilled (r : R)
| Rejected.
Arguments Fulfilled {R} r.
Arguments Rejected {R}.

(** How a handler ends. *)
Inductive Completion (A : Type) : Type :=
| Returned (a : A)
| Thrown.
Arguments Returned {A} a.
Arguments Thrown {A}.

(** ** The dataset of a storage actor *)

(** What the platform hands to an actor with an event: the reading of the
    clock and fresh identifiers. *)
Record Stamp : Type := mkStamp {
  now : string;
  uuid : nat -> string;
}.

(** Modelled from the spec: the dataset of one actor, the two tables of
    [initSchema], the daily counters keyed by date and level, and the
    configured health URLs. *)
Record Actor : Type := mkActor {
  logs : list LogEntry;
  health_checks : list HealthCheckResult;
  stats : gmap (string * string) nat;
  health_urls : list string;
}.

(** Modelled from the spec: an actor that has served nothing yet. *)
Definition empty_actor : Actor := mkActor [] [] ∅ [].


(** ** What the handlers take from outside the sources *)

(** The Workers runtime and the modules of the repository that are not among
    the sources:
    - [DOId], [idFromName]: the identifiers of the storage actors and
      [APP_LOGS_DO.idFromName];
    - [localeCompare]: [String.prototype.localeCompare], the collation of the
      runtime;
    - [countByLevel]: the function of [utils.ts] that the batch branch of
      [POST /logs] calls;
    - [parsable]: whether a [before] bound parses as a timestamp, in the
      storage actor ([durable-objects/app-logs-do.ts]);
    - [read_view]: the answers of the read operations of the storage actor
      ([queryLogs], [getStats]), computed from the dataset of the actor and
      its clock;
    - [KVState], [kv_perform]: the KV namespace and how the registry and
      statistics services ([services/registry.ts], [services/stats.ts])
      answer a call and change it;
    - [clock]: what the runtime hands to the n-th request an actor serves. *)
Class Platform : Type := {
  DOId : Type;
  DOId_eq_dec :: EqDecision DOId;
  DOId_countable :: Countable DOId;
  idFromName : string -> DOId;
  localeCompare : string -> string -> Z;
  countByLevel : list LogInput -> list LevelCount;
  parsable : string -> bool;
  read_view : DORequest -> Actor -> Stamp -> DOJson;
  KVState : Type;
  kv_perform : forall c : KVCall, KVState -> Outcome (KVAnswer c) * KVState;
  clock : nat -> Stamp;
}.

(** ** Programs with awaits, handlers and actors *)

Section Definitions.

Context {P : Platform}.

Inductive Effect : Type :=
| StubFetch (stub : DOId) (req : DORequest)
| KV (c : KVCall).

Definition Answer (e : Effect) : Type :=
  match e with
  | StubFetch _ _ => DOJson
  | KV c => KVAnswer c
  end.

(** An async function body: it returns, throws, or awaits a call and goes on
    with the way the call settled. *)
Inductive Prog (A : Type) : Type :=
| Ret (a : A)
| Throw
| Await (e : Effect) (k : Outcome (Answer e) -> Prog A).
Arguments Ret {A} a.
Arguments Throw {A}.
Arguments Await {A} e k.

Fixpoint bind {A B} (p : Prog A) (f : A -> Prog B) : Prog B :=
  match p with
  | Ret a => f a
  | Throw => Throw
  | Await e k => Await e (fun o => bind (k o) f)
  end.

(** [await call]: a rejection is thrown. *)
Definition await (e : Effect) : Prog (Answer e) :=
  Await e (fun o => match o with Fulfilled r => Ret r | Rejected => Throw end).

(** [try { p } catch { return a }]. *)
Fixpoint try_catch {A} (p : Prog A) (a : A) : Prog A :=
  match p with
  | Ret x => Ret x
  | Throw => Ret a
  | Await e k => Await e (fun o => try_catch (k o) a)
  end.

(** [Promise.all] of async calls started in array order; the results are in
    array order. *)
Fixpoint Promise_all {A} (ps : list (Prog A)) : Prog (list A) :=
  match ps with
  | [] => Ret []
  | p :: ps' => bind p (fun a => bind (Promise_all ps') (fun l => Ret (a :: l)))
  end.

(** Running a program: [perform] settles each awaited call in a state [W];
    the calls are recorded in the order they are made. *)
Fixpoint run {W A} (perform : forall e : Effect, W -> Outcome (Answer e) * W)
    (p : Prog A) (w : W) : Completion A * W * list Effect :=
  match p with
  | Ret a => (Returned a, w, [])
  | Throw => (Thrown, w, [])
  | Await e k =>
      let '(o, w1) := perform e w in
      let '(c, w2, tr) := run perform (k o) w1 in
      (c, w2, e :: tr)
  end.

Definition completion {W A} (r : Completion A * W * list Effect) : Completion A :=
  fst (fst r).
Definition final {W A} (r : Completion A * W * list Effect) : W := snd (fst r).
Definition calls {W A} (r : Completion A * W * list Effect) : list Effect := snd r.

#[global] Instance Prog_ret : MRet Prog := fun A a => Ret a.
#[global] Instance Prog_bind : MBind Prog := fun A B f p => bind p f.

(** ** The handlers of [index.ts] *)

(** [getAppDO(env, appId)]: the stub of the actor named after the app. *)
Definition getAppDO (appId : string) : DOId := idFromName appId.

Definition dquote : string := String (ascii_of_nat 34) EmptyString.

(** [authenticatedAppId && appId !== authenticatedAppId]. *)
Definition app_id_mismatch (authenticatedAppId : option string) (appId : string) : bool :=
  match truthy authenticatedAppId with
  | Some a => negb (String.eqb appId a)
  | None => false
  end.

(** [appId !== authenticatedAppId]. *)
Definition strict_neq (appId : string) (authenticatedAppId : option string) : bool :=
  match authenticatedAppId with
  | Some a => negb (String.eqb appId a)
  | None => true
  end.

Definition mismatch_response : Response :=
  c_json_status (Failed UNAUTHORIZED "App ID mismatch") 403.

Definition kv_missing_response : Response :=
  c_json_status (Failed INTERNAL_ERROR "KV namespace not configured") 500.

(** [POST /logs]: the write, then the statistics when the write is ok. *)
Definition post_logs (appId : string) (body : LogsBody) : Prog Response :=
  let stub := getAppDO appId in
  match body with
  | Batch logs =>
      result ← await (StubFetch stub (PostLogs logs));
      _ ← (if ok result
           then _ ← await (StubFetch stub (PostStats (StatsCounts (countByLevel logs))));
                mret tt
           else mret tt);
      mret (c_json (Forwarded result))
  | Single input =>
      result ← await (StubFetch stub (PostLog input));
      _ ← (if ok result
           then _ ← await (StubFetch stub (PostStats (StatsLevel (in_level input))));
                mret tt
           else mret tt);
      mret (c_json (Forwarded result))
  end.

(** The global limit of an aggregated query. *)
Definition globalLimit (search : JS.URLSearchParams) : JS.number :=
  if JS.has "limit" search
  then JS.parseInt (default "" (JS.get "limit" search))
  else JS.Num 100.

Definition perAppLimit (search : JS.URLSearchParams) (appIds : list string) : JS.number :=
  JS.Math_max (JS.Num 10)
    (JS.Math_ceil_div (globalLimit search) (Z.of_nat (length appIds))).

(** The query string of the per-app requests: the limit overridden, the
    offset removed. *)
Definition perAppParams (search : JS.URLSearchParams) (appIds : list string)
    : JS.URLSearchParams :=
  JS.delete_ "offset" (JS.set "limit" (JS.String_ (perAppLimit search appIds)) search).

(** [{ ...entry, app_id: id }]. *)
Definition tag (id : string) (e : LogEntry) : AggregatedLogEntry :=
  mkAggregated e id.

(** What one app contributes, from the JSON its actor answered. *)
Definition contribution (id : string) (json : DOJson) : list AggregatedLogEntry :=
  match json with
  | Ok (DEntries data) => map (tag id) data
  | _ => []
  end.

(** The callback of [appIds.map]: a failure of the app is caught and counts
    as no entry. *)
Definition query_app (params : JS.URLSearchParams) (id : string)
    : Prog (list AggregatedLogEntry) :=
  try_catch
    (json ← await (StubFetch (getAppDO id) (GetLogs params));
     mret (contribution id json))
    [].

(** [(a, b) => b.timestamp.localeCompare(a.timestamp)]. *)
Definition newest_first (a b : AggregatedLogEntry) : Z :=
  localeCompare (timestamp (entry b)) (timestamp (entry a)).

(** [GET /logs]. [ctxAppId] is [c.get('appId')], [headerAppId] the
    [X-App-ID] header, [search] the query string of the request. *)
Definition get_logs (env : Env) (ctxAppId headerAppId : option string)
    (search : JS.URLSearchParams) : Prog Response :=
  match truthy ctxAppId ∪ truthy headerAppId with
  | Some appId =>
      json ← await (StubFetch (getAppDO appId) (GetLogs search));
      mret (c_json (Forwarded json))
  | None =>
      if negb (LOGS_KV env) then mret kv_missing_response
      else
        appsResult ← await (KV ListApps);
        match appsResult with
        | Err code msg => mret (c_json_status (Failed code msg) 500)
        | Ok [] => mret (c_json (OkLogs []))
        | Ok appIds =>
            results ← Promise_all (map (query_app (perAppParams search appIds)) appIds);
            let merged := concat results in
            let sorted := JS.sort newest_first merged in
            let truncated := JS.slice0 sorted (globalLimit search) in
            mret (c_json (OkLogs truncated))
        end
  end.

(** [GET /stats/:app_id]. *)
Definition get_stats (appId : string) (authenticatedAppId : option string)
    (daysQuery : option string) : Prog Response :=
  if app_id_mismatch authenticatedAppId appId then mret mismatch_response
  else
    let days :=
      match truthy daysQuery with
      | Some d => JS.parseInt_auto d
      | None => JS.Num 7
      end in
    json ← await (StubFetch (getAppDO appId) (GetStats days));
    mret (c_json (Forwarded json)).

(** [POST /apps/:app_id/prune]; [before] is [body.before]. *)
Definition post_prune (appId : string) (authenticatedAppId : option string)
    (before : option string) : Prog Response :=
  if strict_neq appId authenticatedAppId then mret mismatch_response
  else
    match truthy before with
    | None =>
        mret (c_json_status
                (Failed BAD_REQUEST (dquote +:+ "before" +:+ dquote +:+ " timestamp required"))
                400)
    | Some b =>
        json ← await (StubFetch (getAppDO appId) (PostPrune (Some b)));
        mret (c_json (Forwarded json))
    end.

(** [POST /apps/:app_id/health-urls]; [urls] is [body.urls] when it is an
    array. *)
Definition post_health_urls (appId : string) (authenticatedAppId : option string)
    (urls : option (list string)) : Prog Response :=
  if app_id_mismatch authenticatedAppId appId then mret mismatch_response
  else
    match urls with
    | None =>
        mret (c_json_status
                (Failed BAD_REQUEST (dquote +:+ "urls" +:+ dquote +:+ " array required"))
                400)
    | Some l =>
        json ← await (StubFetch (getAppDO appId) (PostHealthUrls l));
        mret (c_json (Forwarded json))
    end.

(** [const { api_key: _, ...safeData } = data]. *)
Definition safeData (data : AppObject) : AppObject := delete "api_key" data.

(** [GET /apps/:app_id]. *)
Definition get_app (env : Env) (appId : string) (authenticatedAppId : option string)
    : Prog Response :=
  if app_id_mismatch authenticatedAppId appId then mret mismatch_response
  else if negb (LOGS_KV env) then mret kv_missing_response
  else
    result ← await (KV (GetApp appId));
    match result with
    | Err code msg => mret (c_json_status (Failed code msg) 500)
    | Ok None =>
        mret (c_json_status (Failed NOT_FOUND ("App '" +:+ appId +:+ "' not found")) 404)
    | Ok (Some data) => mret (c_json (OkApp (safeData data)))
    end.

(** [DELETE /apps/:app_id]. *)
Definition delete_app (env : Env) (appId : string) (authenticatedAppId : option string)
    : Prog Response :=
  if app_id_mismatch authenticatedAppId appId then mret mismatch_response
  else if negb (LOGS_KV env) then mret kv_missing_response
  else
    result ← await (KV (DeleteApp appId));
    match result with
    | Err code msg => mret (c_json_status (Failed code msg) 500)
    | Ok data => mret (c_json (OkDeleted data))
    end.

(** ** The entrypoint of [rpc.ts] *)

Definition result_data {A} (r : Result A) : option A :=
  match r with Ok d => Some d | Err _ _ => None end.

(** [LogsRPC.log]. *)
Definition rpc_log (env : Env) (appId : string) (entry : LogInput)
    : Prog (option DOData) :=
  result ← await (StubFetch (getAppDO appId) (PostLog entry));
  _ ← (if ok result && LOGS_KV env
       then await (KV (IncrementStats appId (in_level entry)))
       else mret tt);
  mret (result_data result).

(** [existing.count++] on the element [acc.find] returned: the first element
    of that level. *)
Fixpoint increment_first (level : string) (acc : list LevelCount) : list LevelCount :=
  match acc with
  | [] => []
  | c :: acc' =>
      if String.eqb (lc_level c) level
      then mkLevelCount (lc_level c) (S (lc_count c)) :: acc'
      else c :: increment_first level acc'
  end.

(** The callback of [entries.reduce]. *)
Definition count_step (acc : list LevelCount) (log : LogInput) : list LevelCount :=
  match List.find (fun c => String.eqb (lc_level c) (in_level log)) acc with
  | Some _ => increment_first (in_level log) acc
  | None => acc ++ [mkLevelCount (in_level log) 1]
  end.

Definition batch_counts (entries : list LogInput) : list LevelCount :=
  fold_left count_step entries [].

(** [LogsRPC.logBatch]. *)
Definition rpc_logBatch (env : Env) (appId : string) (entries : list LogInput)
    : Prog (option DOData) :=
  result ← await (StubFetch (getAppDO appId) (PostLogs entries));
  _ ← (if ok result && LOGS_KV env
       then await (KV (IncrementStatsBatch appId (batch_counts entries)))
       else mret tt);
  mret (result_data result).

(** ** The storage actor *)

(** Modelled from the spec: the levels [writeLog] accepts. *)
Definition valid_level (l : string) : bool :=
  String.eqb l "DEBUG" || String.eqb l "INFO" || String.eqb l "WARN" || String.eqb l "ERROR".

(** Modelled from the spec: the row made of an input, with the id and the
    timestamp the actor assigns. *)
Definition make_entry (st : Stamp) (i : nat) (input : LogInput) : LogEntry :=
  mkLogEntry (uuid st i) (now st) (in_level input) (in_message input)
    (in_context input) (in_request_id input).

(** The date of a reading of the clock: the first ten characters. *)
Definition day (st : Stamp) : string := substring 0 10 (now st).

(** Modelled from the spec: a count added to the counter of its level. *)
Definition add_count (date : string) (m : gmap (string * string) nat) (c : LevelCount)
    : gmap (string * string) nat :=
  <[(date, lc_level c) := (default 0%nat (m !! (date, lc_level c)) + lc_count c)%nat]> m.

(** Modelled from the spec: [writeLog(entry)] validates the level, assigns
    the id and the timestamp, persists the entry and, in the same step,
    increments the counter of its level for the day.  A [LogInput] carries
    neither an id nor a timestamp, so both are always assigned. *)
Definition writeLog (st : Stamp) (input : LogInput) (a : Actor) : DOJson * Actor :=
  if valid_level (in_level input)
  then
    let e := make_entry st 0 input in
    (Ok (DEntry e),
     mkActor (logs a ++ [e]) (health_checks a)
       (add_count (day st) (stats a) (mkLevelCount (in_level input) 1)) (health_urls a))
  else (Err VALIDATION_ERROR "invalid level", a).

(** Modelled from the spec: [writeLogBatch(entries)] rejects all entries when
    one is invalid; otherwise it persists all of them and increments all the
    matching counters in the same step. *)
Definition writeLogBatch (st : Stamp) (inputs : list LogInput) (a : Actor)
    : DOJson * Actor :=
  if forallb (fun i => valid_level (in_level i)) inputs
  then
    (Ok (DCount (length inputs)),
     mkActor (logs a ++ imap (make_entry st) inputs) (health_checks a)
       (fold_left (add_count (day st)) (map (fun i => mkLevelCount (in_level i) 1) inputs)
          (stats a))
       (health_urls a))
  else (Err VALIDATION_ERROR "invalid level", a).

(** Modelled from the spec: [pruneLogs(before)] deletes the rows with
    [timestamp < before] and fails when [before] is absent or unparsable. *)
Definition pruneLogs (before : option string) (a : Actor) : DOJson * Actor :=
  match before with
  | Some b =>
      if parsable b
      then
        let kept := List.filter (fun e => negb (String.ltb (timestamp e) b)) (logs a) in
        (Ok (DDeleted (length (logs a) - length kept)%nat),
         mkActor kept (health_checks a) (stats a) (health_urls a))
      else (Err VALIDATION_ERROR "invalid before", a)
  | None => (Err VALIDATION_ERROR "before required", a)
  end.

(** Modelled from the spec: the increment operation of the statistics (the
    request the gateway sends after an accepted write): the counters of the
    day are incremented, one level or a list of counts at a time. *)
Definition incrementStats (st : Stamp) (b : StatsBody) (a : Actor) : DOJson * Actor :=
  let counts :=
    match b with
    | StatsLevel l => [mkLevelCount l 1]
    | StatsCounts cs => cs
    end in
  (Ok (DOpaque "recorded"),
   mkActor (logs a) (health_checks a) (fold_left (add_count (day st)) counts (stats a))
     (health_urls a)).

(** Modelled from the spec: [setHealthUrls(urls)] replaces the configured
    URLs. *)
Definition setHealthUrls (urls : list string) (a : Actor) : DOJson * Actor :=
  (Ok (DOpaque "updated"), mkActor (logs a) (health_checks a) (stats a) urls).


(** Modelled from the spec: the [fetch] handler of an actor, by route. *)
Definition actor_fetch (st : Stamp) (req : DORequest) (a : Actor) : DOJson * Actor :=
  match req with
  | PostLog input => writeLog st input a
  | PostLogs inputs => writeLogBatch st inputs a
  | PostStats b => incrementStats st b a
  | PostPrune before => pruneLogs before a
  | PostHealthUrls urls => setHealthUrls urls a
  | GetLogs _ | GetStats _ => (read_view req a st, a)
  end.


(** *** The actors of the namespace *)

(** An actor exists for every identifier; it is empty until its first
    event. *)
Definition actor_of (actors : gmap DOId Actor) (d : DOId) : Actor :=
  default empty_actor (actors !! d).






(** *** The gateway running against the actors *)

(** The actors, the number of requests served so far and the state of the KV
    namespace. *)
Record World : Type := mkWorld {
  actors : gmap DOId Actor;
  served : nat;
  kv_state : KVState;
}.

Definition perform_world (e : Effect) : World -> Outcome (Answer e) * World :=
  match e as e0 return World -> Outcome (Answer e0) * World with
  | StubFetch d req => fun w =>
      let '(json, a') := actor_fetch (clock (served w)) req (actor_of (actors w) d) in
      (Fulfilled json, mkWorld (<[d := a']> (actors w)) (S (served w)) (kv_state w))
  | KV c => fun w =>
      let '(o, k') := kv_perform c (kv_state w) in
      (o, mkWorld (actors w) (served w) k')
  end.

(** *** What an aggregated query receives *)

(** The outcomes of the per-app requests of an aggregated query, in the order
    of the apps, and the state they leave. *)
Fixpoint settle_all {W} (perform : forall e : Effect, W -> Outcome (Answer e) * W)
    (params : JS.URLSearchParams) (ids : list string) (w : W)
    : list (Outcome DOJson) * W :=
  match ids with
  | [] => ([], w)
  | i :: ids' =>
      let '(o, w1) := perform (StubFetch (getAppDO i) (GetLogs params)) w in
      let '(os, w2) := settle_all perform params ids' w1 in
      (o :: os, w2)
  end.

(** What an app contributes, from the way its request settled. *)
Definition contribution_of (i : string) (o : Outcome DOJson) : list AggregatedLogEntry :=
  match o with
  | Fulfilled json => contribution i json
  | Rejected => []
  end.

(** The per-app request of an aggregated query. *)
Definition app_request (params : JS.URLSearchParams) (i : string) : Effect :=
  StubFetch (getAppDO i) (GetLogs params).

(** A response that reports a failure: an exception (Hono answers 500) or a
    status other than 200. *)
Definition failed (c : Completion Response) : bool :=
  match c with
  | Returned r => negb (status r =? 200)
  | Thrown => true
  end.

(** The registry can be read: the KV namespace is bound and listing the apps
    succeeds. *)
Definition registry_lists {W} (perform : forall e : Effect, W -> Outcome (Answer e) * W)
    (env : Env) (w : W) : option (list string) :=
  if LOGS_KV env then
    match fst (perform (KV ListApps) w) with
    | Fulfilled (Ok ids) => Some ids
    | _ => None
    end
  else None.

(** *** What the properties speak of *)


(** The collation of the runtime orders the timestamps of [l] as the
    comparison of strings does. *)
Definition collation_is_lexical (l : list AggregatedLogEntry) : Prop :=
  forall a b, a ∈ l -> b ∈ l ->
    (localeCompare (timestamp (entry a)) (timestamp (entry b)) <=? 0) =
    String.leb (timestamp (entry a)) (timestamp (entry b)).

(** The entries an aggregated query merges: what every listed app
    contributes, in the order of the apps. *)
Definition merged_entries {W} (perform : forall e : Effect, W -> Outcome (Answer e) * W)
    (search : JS.URLSearchParams) (ids : list string) (w : W)
    : list AggregatedLogEntry :=
  concat
    (zip_with contribution_of ids
       (fst (settle_all perform (perAppParams search ids) ids
               (snd (perform (KV ListApps) w))))).

(** The request that writes the body of [POST /logs] and the request that
    records its statistics. *)
Definition write_request (b : LogsBody) : DORequest :=
  match b with
  | Single input => PostLog input
  | Batch inputs => PostLogs inputs
  end.

Definition stats_request (b : LogsBody) : DORequest :=
  match b with
  | Single input => PostStats (StatsLevel (in_level input))
  | Batch inputs => PostStats (StatsCounts (countByLevel inputs))
  end.

(** An awaited write was accepted: it was answered, with an ok result. *)
Definition accepted (o : Outcome DOJson) : bool :=
  match o with
  | Fulfilled result => ok result
  | Rejected => false
  end.

(** The protocol of a write: the write is sent to the actor; when [recorded]
    holds of its answer, the increment call [record] is made; the caller is
    answered with [answer result] once that call has settled, whatever its
    answer, and by an exception when the write or the increment was
    rejected.  No other call is made. *)
Definition write_then_record {W A}
    (perform : forall e : Effect, W -> Outcome (Answer e) * W)
    (stub : DOId) (write : DORequest) (record : Effect) (recorded : DOJson -> bool)
    (answer : DOJson -> A) (w : W) : Completion A * W * list Effect :=
  match perform (StubFetch stub write) w with
  | (Fulfilled result, w1) =>
      if recorded result then
        match perform record w1 with
        | (Fulfilled _, w2) =>
            (Returned (answer result), w2, [StubFetch stub write; record])
        | (Rejected, w2) => (Thrown, w2, [StubFetch stub write; record])
        end
      else (Returned (answer result), w1, [StubFetch stub write])
  | (Rejected, w1) => (Thrown, w1, [StubFetch stub write])
  end.

(** How many entries of a batch have a level. *)
Definition occurrences (l : string) (entries : list LogInput) : nat :=
  length (List.filter (fun e => String.eqb (in_level e) l) entries).

(** The count a list of counts gives to a level, and the sum of its counts. *)
Definition weight (l : string) (acc : list LevelCount) : nat :=
  list_sum (map lc_count (List.filter (fun c => String.eqb (lc_level c) l) acc)).

Definition total (acc : list LevelCount) : nat := list_sum (map lc_count acc).

Definition levels (acc : list LevelCount) : list string := map lc_level acc.

End Definitions.

Arguments Ret {P A} a.
Arguments Throw {P A}.
Arguments Await {P A} e k.

(** ** The rest of the entrypoint of [rpc.ts] *)

(** An integer of magnitude at most 2^53 - 1. *)
Record SafeInteger : Type := mkSafeInteger {
  integer : Z;
  integer_safe : (Z.abs integer <=? 9007199254740991) = true;
}.

(** A value of type [number] given as a filter.  [LogsRPC.query] only tests
    it for truthiness and prints it with [String]: it is NaN, a safe integer,
    or any other number (a number that is not an integer, an integer beyond
    2^53, an infinity), which is truthy and is given by the text [String]
    prints of it. *)
Inductive FilterNumber : Type :=
| NotANumber
| Integer (n : SafeInteger)
| OtherNumber (text : string).

(** [QueryFilters]: every filter is optional. *)
Record QueryFilters : Type := mkQueryFilters {
  q_level : option string;
  q_since : option string;
  q_until : option string;
  q_request_id : option string;
  q_limit : option FilterNumber;
  q_offset : option FilterNumber;
}.

(** Truthiness of an optional number: [undefined], [0] and [NaN] are
    falsy. *)
Definition truthy_number (x : option FilterNumber) : option FilterNumber :=
  match x with
  | Some (Integer n) => if integer n =? 0 then None else Some (Integer n)
  | Some (OtherNumber text) => Some (OtherNumber text)
  | Some NotANumber => None
  | None => None
  end.

(** [String(x)] of a filter. *)
Definition number_text (x : FilterNumber) : string :=
  match x with
  | NotANumber => "NaN"
  | Integer n => JS.String_ (JS.Num (integer n))
  | OtherNumber text => text
  end.

(** [if (v) params.set(name, v)]. *)
Definition set_if (v : option string) (name : string) (params : JS.URLSearchParams)
    : JS.URLSearchParams :=
  match v with
  | Some s => JS.set name s params
  | None => params
  end.

(** The parameters [LogsRPC.query] makes of the filters; [filters?.f] is
    undefined when [filters] is. *)
Definition query_params (filters : option QueryFilters) : JS.URLSearchParams :=
  let params := [] in
  let params := set_if (truthy (filters ≫= q_level)) "level" params in
  let params := set_if (truthy (filters ≫= q_since)) "since" params in
  let params := set_if (truthy (filters ≫= q_until)) "until" params in
  let params := set_if (truthy (filters ≫= q_request_id)) "request_id" params in
  let params := set_if (number_text <$> truthy_number (filters ≫= q_limit)) "limit" params in
  set_if (number_text <$> truthy_number (filters ≫= q_offset)) "offset" params.

(** The names [LogsRPC.query] may set. *)
Definition filter_names : list string :=
  ["level"; "since"; "until"; "request_id"; "limit"; "offset"].

(** The [CHECK] constraint of the column [level] of the table [logs]:
    [level IN ('DEBUG', 'INFO', 'WARN', 'ERROR')]. *)
Definition schema_levels : list string := ["DEBUG"; "INFO"; "WARN"; "ERROR"].

Definition level_check (level : string) : bool :=
  existsb (String.eqb level) schema_levels.

(** NaN or a safe integer: an integer of magnitude at most 2^53 - 1
    ([Number.MAX_SAFE_INTEGER]), the range in which the numbers of JavaScript
    are the integers. *)
Definition safe_number (x : JS.number) : Prop :=
  match x with
  | JS.NaN => True
  | JS.Num z => Z.abs z <= 9007199254740991
  end.



(** [c.json(Ok(data), status)] and [c.json(Err(...), status)] of the routes
    whose data is not a [Body] above. *)
Record Reply (A : Type) : Type := mkReply {
  reply_status : Z;
  reply_body : Result A;
}.
Arguments mkReply {A} reply_status reply_body.
Arguments reply_status {A} r.
Arguments reply_body {A} r.

(** The body of [POST /apps]. *)
Record RegisterBody : Type := mkRegisterBody {
  r_app_id : option string;
  r_name : option string;
  r_health_urls : option (list string);
}.

(** *** Programs over the services the claims do not meet *)

(** [registry.registerApp(kv, app_id, name, health_urls)]. *)
Inductive RegistryCall : Type :=
| RegisterApp (app_id name : string) (health_urls : option (list string)).

Definition RegistryAnswer (c : RegistryCall) : Type := Result AppObject.

(** [stats.getStatsRange(kv, appId, days)]; [DailyStats] is the type of
    [types.ts]. *)
Inductive StatsCall : Type :=
| GetStatsRange (appId : string) (days : JS.number).

Definition StatsAnswer (DailyStats : Type) (c : StatsCall) : Type :=
  Result (list DailyStats).

(** An async function body over the calls [C], a call [c] answered in
    [R c]. *)
Inductive Script {C : Type} (R : C -> Type) (A : Type) : Type :=
| Done (a : A)
| Raise
| Ask (c : C) (k : Outcome (R c) -> Script R A).
Arguments Done {C R A} a.
Arguments Raise {C R A}.
Arguments Ask {C R A} c k.

Fixpoint script_bind {C} {R : C -> Type} {A B} (p : Script R A) (f : A -> Script R B)
    : Script R B :=
  match p with
  | Done a => f a
  | Raise => Raise
  | Ask c k => Ask c (fun o => script_bind (k o) f)
  end.

(** [await call]: a rejection is thrown. *)
Definition ask {C} {R : C -> Type} (c : C) : Script R (R c) :=
  Ask c (fun o => match o with Fulfilled r => Done r | Rejected => Raise end).

#[global] Instance Script_ret {C} (R : C -> Type) : MRet (Script R) := fun A a => Done a.
#[global] Instance Script_bind {C} (R : C -> Type) : MBind (Script R) :=
  fun A B f p => script_bind p f.

(** Running a script: [perform] settles each call in a state [W]; the calls
    are recorded in order. *)
Fixpoint play {C} {R : C -> Type} {W A} (perform : forall c : C, W -> Outcome (R c) * W)
    (p : Script R A) (w : W) : Completion A * W * list C :=
  match p with
  | Done a => (Returned a, w, [])
  | Raise => (Thrown, w, [])
  | Ask c k =>
      let '(o, w1) := perform c w in
      let '(r, w2, tr) := play perform (k o) w1 in
      (r, w2, c :: tr)
  end.

Definition played {C W A} (r : Completion A * W * list C) : Completion A := fst (fst r).
Definition asked {C W A} (r : Completion A * W * list C) : list C := snd r.

(** [POST /apps]. *)
Definition post_apps (env : Env) (body : RegisterBody)
    : Script RegistryAnswer (Reply AppObject) :=
  if negb (LOGS_KV env)
  then mret (mkReply 500 (Err INTERNAL_ERROR "KV namespace not configured"))
  else
    match truthy (r_app_id body), truthy (r_name body) with
    | Some app_id, Some name =>
        result ← ask (RegisterApp app_id name (r_health_urls body));
        match result with
        | Err code msg => mret (mkReply 500 (Err code msg))
        | Ok data => mret (mkReply 201 (Ok data))
        end
    | _, _ =>
        mret (mkReply 400
                (Err BAD_REQUEST
                   (dquote +:+ "app_id" +:+ dquote +:+ " and " +:+ dquote +:+ "name"
                      +:+ dquote +:+ " required")))
    end.

(** [LogsRPC.getStats]; [days] is 7 when the caller gives none. *)
Definition rpc_getStats {DailyStats : Type} (env : Env) (appId : string)
    (days : option JS.number) : Script (StatsAnswer DailyStats) (list DailyStats) :=
  let days := default (JS.Num 7) days in
  if negb (LOGS_KV env) then mret []
  else
    result ← ask (GetStatsRange appId days);
    mret (match result with Ok data => data | Err _ _ => [] end).

Section Entrypoints.

Context {P : Platform}.

(** [LogsRPC.query]. *)
Definition rpc_query (appId : string) (filters : option QueryFilters)
    : Prog (option DOData) :=
  result ← await (StubFetch (getAppDO appId) (GetLogs (query_params filters)));
  mret (result_data result).

(** [LogsRPC.info], [warn], [error] and [debug]. *)
Definition rpc_info (env : Env) (appId message : string) (context : option string)
    : Prog (option DOData) :=
  rpc_log env appId (mkLogInput "INFO" message context None).

Definition rpc_warn (env : Env) (appId message : string) (context : option string)
    : Prog (option DOData) :=
  rpc_log env appId (mkLogInput "WARN" message context None).

Definition rpc_error (env : Env) (appId message : string) (context : option string)
    : Prog (option DOData) :=
  rpc_log env appId (mkLogInput "ERROR" message context None).

Definition rpc_debug (env : Env) (appId message : string) (context : option string)
    : Prog (option DOData) :=
  rpc_log env appId (mkLogInput "DEBUG" message context None).

(** [GET /apps]. *)
Definition get_apps (env : Env) : Prog (Reply (list string)) :=
  if negb (LOGS_KV env)
  then mret (mkReply 500 (Err INTERNAL_ERROR "KV namespace not configured"))
  else
    result ← await (KV ListApps);
    match result with
    | Err code msg => mret (mkReply 500 (Err code msg))
    | Ok data => mret (mkReply 200 (Ok data))
    end.

(** *** What the properties of these speak of *)

(** A call to the actor [d], and a call on the KV namespace. *)
Definition to_actor (d : DOId) (e : Effect) : bool :=
  match e with
  | StubFetch d' _ => bool_decide (d' = d)
  | KV _ => false
  end.

Definition to_registry (e : Effect) : bool :=
  match e with
  | StubFetch _ _ => false
  | KV _ => true
  end.


(** The outcomes of the per-app requests of an aggregated query, in the
    order of the listing. *)
Definition per_app_outcomes {W} (perform : forall e : Effect, W -> Outcome (Answer e) * W)
    (search : JS.URLSearchParams) (ids : list string) (w : W) : list (Outcome DOJson) :=
  fst (settle_all perform (perAppParams search ids) ids (snd (perform (KV ListApps) w))).

(** The concatenation of the per-tenant result lists, every entry tagged
    with its source app id: for each listed app whose request was answered
    by an ok result holding a list of entries, those entries with the id of
    the app, and nothing for an app whose request was rejected or answered
    otherwise. *)
Definition tagged_results (ids : list string) (outcomes : list (Outcome DOJson))
    : list AggregatedLogEntry :=
  concat
    (zip_with
       (fun id o =>
          match o with
          | Fulfilled (Ok (DEntries l)) => map (fun e => mkAggregated e id) l
          | _ => []
          end)
       ids outcomes).



(** The entries of a timestamp, in order. *)
Definition at_time (t : string) (l : list AggregatedLogEntry) : list AggregatedLogEntry :=
  List.filter (fun e => String.eqb (timestamp (entry e)) t) l.

End Entrypoints.

(** ** The service as the tenants use it *)

Section Service.

Context {P : Platform}.














End Service.

(** ** A deployment for the examples *)

(** The actors are named by the app ids themselves, the collation is the
    comparison of strings byte by byte (the timestamps of the examples are
    UTC instants of one format, which differ in digits only), the gateway
    counts the levels of a batch as the RPC entrypoint does, a bound parses
    when it has the length of an ISO-8601 instant, a read answers the rows
    of the actor, and the KV namespace lists the apps A and B. *)
Module Sample.

Definition naming (appId : string) : string := appId.

Definition lexical (s t : string) : Z :=
  match String.compare s t with
  | Lt => -1
  | Eq => 0
  | Gt => 1
  end.

Definition decimal (n : nat) : string := NilZero.string_of_uint (Nat.to_uint n).

Definition two_digits (n : nat) : string :=
  if (n <? 10)%nat then "0" +:+ decimal n else decimal n.

Definition parses (s : string) : bool := Nat.eqb (String.length s) 24.

Definition view (req : DORequest) (a : Actor) (st : Stamp) : DOJson :=
  Ok (DEntries (logs a)).

Definition ticking (n : nat) : Stamp :=
  mkStamp ("2026-01-01T00:00:" +:+ two_digits n +:+ ".000Z")
    (fun i => "row-" +:+ decimal n +:+ "-" +:+ decimal i).

(** What the KV namespace answers when it answers by rote. *)
Definition kv_answer (listing : Outcome (Result (list string)))
    (app : Outcome (Result (option AppObject))) (c : KVCall) : Outcome (KVAnswer c) :=
  match c as c0 return Outcome (KVAnswer c0) with
  | ListApps => listing
  | GetApp _ => app
  | DeleteApp _ => Fulfilled (Ok "deleted")
  | IncrementStats _ _ => Fulfilled tt
  | IncrementStatsBatch _ _ => Fulfilled tt
  end.

Definition listed (ids : list string) : Outcome (Result (list string)) :=
  Fulfilled (Ok ids).

Definition no_app : Outcome (Result (option AppObject)) := Fulfilled (Ok None).

Definition kv (c : KVCall) (s : unit) : Outcome (KVAnswer c) * unit :=
  (kv_answer (listed ["A"; "B"]) no_app c, s).

Definition platform : Platform := {|
  DOId := string;
  idFromName := naming;
  localeCompare := lexical;
  countByLevel := batch_counts;
  parsable := parses;
  read_view := view;
  KVState := unit;
  kv_perform := kv;
  clock := ticking;
|}.

#[local] Existing Instance platform.

(** The log written at second [s] of the first minute of 2026. *)
Definition at_second (s : nat) : LogEntry :=
  mkLogEntry ("log-" +:+ decimal s) ("2026-01-01T00:00:" +:+ two_digits s +:+ ".000Z")
    "INFO" "tick" None None.

Definition logsA : list LogEntry := map at_second [18; 16; 14; 12; 10; 8; 6; 4; 2; 0]%nat.
Definition logsB : list LogEntry := map at_second [9; 7; 5; 3; 1]%nat.

(** A stateless environment: the registry answers [listing] and [app], the
    actor named [d] answers [fetch d] to a request. *)
Definition oracle (listing : Outcome (Result (list string)))
    (app : Outcome (Result (option AppObject)))
    (fetch : string -> DORequest -> Outcome DOJson)
    (e : Effect) (w : unit) : Outcome (Answer e) * unit :=
  match e as e0 return Outcome (Answer e0) * unit with
  | StubFetch d req => (fetch d req, w)
  | KV c => (kv_answer listing app c, w)
  end.

(** Two apps, A with ten logs and B with five; C does not answer. *)
Definition two_apps (d : string) (req : DORequest) : Outcome DOJson :=
  match req with
  | GetLogs _ =>
      if String.eqb d "A" then Fulfilled (Ok (DEntries logsA))
      else if String.eqb d "B" then Fulfilled (Ok (DEntries logsB))
      else Rejected
  | _ => Fulfilled (Ok (DOpaque "done"))
  end.

Definition three_listed : forall e : Effect, unit -> Outcome (Answer e) * unit :=
  oracle (listed ["A"; "B"; "C"]) no_app two_apps.

Definition two_listed : forall e : Effect, unit -> Outcome (Answer e) * unit :=
  oracle (listed ["A"; "B"]) no_app two_apps.

Definition one_listed : forall e : Effect, unit -> Outcome (Answer e) * unit :=
  oracle (listed ["A"]) no_app two_apps.

Definition query25 : JS.URLSearchParams :=
  [("level", "ERROR"); ("limit", "25"); ("offset", "40")].

Definition query12 : JS.URLSearchParams := [("limit", "12")].

Definition query_minus_1 : JS.URLSearchParams := [("limit", "-1")].

Definition query_abc : JS.URLSearchParams := [("limit", "abc")].

Definition registration (key : string) : AppObject :=
  <["app_id" := VStr "A"]>
    (<["name" := VStr "Shop"]>
       (<["api_key" := VStr key]>
          (<["health_urls" := VStrs ["https://shop.example/health"]]>
             (<["created_at" := VStr "2026-01-01T00:00:00.000Z"]> ∅)))).

Definition registered (key : string) : Outcome (Result (option AppObject)) :=
  Fulfilled (Ok (Some (registration key))).

(** A registry whose state is the key of app A. *)
Definition keyed_registry (e : Effect) (key : string) : Outcome (Answer e) * string :=
  (fst (oracle (listed ["A"]) (registered key) two_apps e tt), key).

Definition hello : LogInput := mkLogInput "INFO" "hello" None None.

Definition batch3 : list LogInput :=
  [mkLogInput "INFO" "a" None None; mkLogInput "ERROR" "b" None None;
   mkLogInput "INFO" "c" None None].

(** An actor that takes the write and fails to record its statistics. *)
Definition stats_fail (d : string) (req : DORequest) : Outcome DOJson :=
  match req with
  | PostLog input => Fulfilled (Ok (DEntry (make_entry (ticking 0) 0 input)))
  | PostStats _ => Fulfilled (Err STORAGE_ERROR "disk full")
  | _ => Rejected
  end.

Definition failing_stats : forall e : Effect, unit -> Outcome (Answer e) * unit :=
  oracle (listed ["A"]) no_app stats_fail.

(** No actor yet, no request served. *)
Definition world0 : World := mkWorld ∅ 0 tt.

(** Actor A with the logs of seconds 1, 2 and 3. *)
Definition stocked : World :=
  mkWorld (<["A" := mkActor (map at_second [1; 2; 3]%nat) [] ∅ []]> ∅) 0 tt.

(** A write through the RPC entrypoint of a worker without KV namespace. *)
Definition rpc_write_without_kv : Completion (option DOData) * World * list Effect :=
  run perform_world (rpc_log (mkEnv false) "shop" hello) world0.

(** A write through the gateway to an actor that fails to record the
    statistics. *)
Definition http_write_with_failing_stats : Completion Response * unit * list Effect :=
  run failing_stats (post_logs "A" (Single hello)) tt.

(** The actor takes the write; the increment of the KV statistics is
    rejected. *)
Definition increments_rejected (e : Effect) (w : unit) : Outcome (Answer e) * unit :=
  match e as e0 return Outcome (Answer e0) * unit with
  | StubFetch d req => (stats_fail d req, w)
  | KV c =>
      (match c as c0 return Outcome (KVAnswer c0) with
       | IncrementStats _ _ => Rejected
       | IncrementStatsBatch _ _ => Rejected
       | ListApps => listed ["A"]
       | GetApp _ => no_app
       | DeleteApp _ => Fulfilled (Ok "deleted")
       end, w)
  end.

(** A write through the RPC entrypoint whose increment is rejected. *)
Definition rpc_write_with_rejected_increment
    : Completion (option DOData) * unit * list Effect :=
  run increments_rejected (rpc_log (mkEnv true) "A" hello) tt.

End Sample.

(** ** Further cases for the examples *)

Module Cases.

Import Sample.

#[local] Existing Instance platform.

(** A and B both hold a log of second 5; A also holds one of second 3. *)
Definition tied_apps (d : string) (req : DORequest) : Outcome DOJson :=
  match req with
  | GetLogs _ =>
      if String.eqb d "A" then Fulfilled (Ok (DEntries (map at_second [5; 3]%nat)))
      else if String.eqb d "B" then Fulfilled (Ok (DEntries (map at_second [5]%nat)))
      else Rejected
  | _ => Fulfilled (Ok (DOpaque "done"))
  end.

Definition ties_listed : forall e : Effect, unit -> Outcome (Answer e) * unit :=
  oracle (listed ["A"; "B"]) no_app tied_apps.













(** An actor that refuses every request. *)
Definition refusing (d : string) (req : DORequest) : Outcome DOJson :=
  Fulfilled (Err VALIDATION_ERROR "refused").

Definition all_refused : forall e : Effect, unit -> Outcome (Answer e) * unit :=
  oracle (listed ["A"]) no_app refusing.

(** The errors since the start of 2026, from the twentieth on, with a limit
    of 0 and an empty upper bound. *)
Definition recent_errors : QueryFilters :=
  mkQueryFilters (Some "ERROR") (Some "2026-01-01T00:00:00.000Z") (Some "") None
    (Some (Integer (mkSafeInteger 0 eq_refl))) (Some (Integer (mkSafeInteger 20 eq_refl))).

(** A limit of one and a half. *)
Definition fractional_limit : QueryFilters :=
  mkQueryFilters None None None None (Some (OtherNumber "1.5")) None.

(** A registry that registers what it is asked to, with a fixed key. *)
Definition registrar (c : RegistryCall) (w : unit) : Outcome (RegistryAnswer c) * unit :=
  match c with
  | RegisterApp app_id name health_urls =>
      (Fulfilled
         (Ok (<["app_id" := VStr app_id]>
                (<["name" := VStr name]> (<["api_key" := VStr "key-1"]> ∅)))),
       w)
  end.

(** A statistics service that answers an error; a day is its count. *)
Definition stats_down (c : StatsCall) (w : unit) : Outcome (StatsAnswer nat c) * unit :=
  (Fulfilled (Err INTERNAL_ERROR "KV unavailable"), w).

End Cases.

(** * Properties *)

Section Properties.

Context {P : Platform}.

(** ** Running programs *)

(** Rewriting with a lemma about [run] at a given call: the type of the
    answer is computed first, so that the instance matches the goal. *)
Ltac rewrite_run lem :=
  let E := fresh "E" in
  pose proof lem as E; cbn [Answer KVAnswer] in E; rewrite E; clear E.

(** *** Strings in byte order *)



(** *** URLSearchParams *)

Lemma getAll_delete_ne (k name : string) (p : JS.URLSearchParams) :
  k <> name -> JS.getAll k (JS.delete_ name p) = JS.getAll k p.
Proof.
  intros Hne. unfold JS.getAll, JS.delete_.
  induction p as [|[k' v] p IH]; [reflexivity|]. cbn [List.filter fst].
  destruct (String.eqb_spec k' name) as [->|Hk]; cbn [negb].
  - destruct (String.eqb_spec name k) as [->|_]; [congruence|]. exact IH.
  - cbn [List.filter fst]. destruct (String.eqb k' k); cbn [map]; now rewrite IH.
Qed.

Lemma getAll_delete_eq (name : string) (p : JS.URLSearchParams) :
  JS.getAll name (JS.delete_ name p) = [].
Proof.
  unfold JS.getAll, JS.delete_.
  induction p as [|[k' v] p IH]; [reflexivity|]. cbn [List.filter fst].
  destruct (String.eqb_spec k' name) as [->|Hk]; cbn [negb]; [exact IH|].
  cbn [List.filter fst]. destruct (String.eqb_spec k' name); [congruence|exact IH].
Qed.


Lemma getAll_set_eq (name value : string) (p : JS.URLSearchParams) :
  JS.getAll name (JS.set name value p) = [value].
Proof.
  induction p as [|[k' v] p IH]; cbn [JS.set].
  - unfold JS.getAll. cbn. now rewrite String.eqb_refl.
  - destruct (String.eqb_spec k' name) as [->|Hk].
    + change (JS.getAll name ((name, value) :: JS.delete_ name p))
        with (map snd (List.filter (fun kv => String.eqb (fst kv) name)
                         ((name, value) :: JS.delete_ name p))).
      cbn [List.filter fst]. rewrite String.eqb_refl. cbn [map snd].
      f_equal. apply getAll_delete_eq.
    + unfold JS.getAll in *. cbn [List.filter fst].
      destruct (String.eqb_spec k' name); [congruence|exact IH].
Qed.

Lemma getAll_set_ne (k name value : string) (p : JS.URLSearchParams) :
  k <> name -> JS.getAll k (JS.set name value p) = JS.getAll k p.
Proof.
  intros Hne. induction p as [|[k' v] p IH]; cbn [JS.set].
  - unfold JS.getAll. cbn. destruct (String.eqb_spec name k); [congruence|reflexivity].
  - destruct (String.eqb_spec k' name) as [->|Hk].
    + unfold JS.getAll. cbn [List.filter fst].
      destruct (String.eqb_spec name k); [congruence|].
      apply (getAll_delete_ne k name p Hne).
    + unfold JS.getAll in *. cbn [List.filter fst].
      destruct (String.eqb k' k); cbn [map]; now rewrite IH.
Qed.

(** *** Sorting *)

Lemma insert_sorted_perm {A} (cmp : A -> A -> Z) (x : A) (l : list A) :
  Permutation (JS.insert_sorted cmp x l) (x :: l).
Proof.
  induction l as [|y l IH]; cbn [JS.insert_sorted]; [reflexivity|].
  destruct (cmp x y <=? 0); [reflexivity|].
  rewrite IH. apply perm_swap.
Qed.

Lemma sort_perm {A} (cmp : A -> A -> Z) (l : list A) :
  Permutation (JS.sort cmp l) l.
Proof.
  induction l as [|x l IH]; cbn [JS.sort]; [reflexivity|].
  rewrite insert_sorted_perm. now rewrite IH.
Qed.

Lemma slice0_nil {A} (e : JS.number) : JS.slice0 (@nil A) e = [].
Proof.
  destruct e as [|z]; [reflexivity|]. unfold JS.slice0.
  destruct (z <? 0); apply take_nil.
Qed.

Section Runs.

Context {W : Type}.
Variable perform : forall e : Effect, W -> Outcome (Answer e) * W.

Lemma run_bind {A B} (p : Prog A) (f : A -> Prog B) (w : W) :
  run perform (bind p f) w =
  match run perform p w with
  | (Returned a, w1, tr1) =>
      let '(c, w2, tr2) := run perform (f a) w1 in (c, w2, (tr1 ++ tr2)%list)
  | (Thrown, w1, tr1) => (Thrown, w1, tr1)
  end.
Proof.
  revert w. induction p as [a| |e k IH]; intros w; simpl.
  - destruct (run perform (f a) w) as [[c w2] tr2]. reflexivity.
  - reflexivity.
  - destruct (perform e w) as [o w1]. rewrite IH.
    destruct (run perform (k o) w1) as [[[a|] w2] tr1]; [|reflexivity].
    destruct (run perform (f a) w2) as [[c w3] tr2]. reflexivity.
Qed.

Lemma run_mbind {A B} (p : Prog A) (f : A -> Prog B) (w : W) :
  run perform (p ≫= f) w =
  match run perform p w with
  | (Returned a, w1, tr1) =>
      let '(c, w2, tr2) := run perform (f a) w1 in (c, w2, (tr1 ++ tr2)%list)
  | (Thrown, w1, tr1) => (Thrown, w1, tr1)
  end.
Proof. apply run_bind. Qed.

Lemma run_await (e : Effect) (w : W) :
  run perform (await e) w =
  match perform e w with
  | (Fulfilled r, w1) => (Returned r, w1, [e])
  | (Rejected, w1) => (Thrown, w1, [e])
  end.
Proof.
  unfold await. simpl. destruct (perform e w) as [[r|] w1]; reflexivity.
Qed.

Lemma run_query_app (params : JS.URLSearchParams) (i : string) (w : W) :
  run perform (query_app params i) w =
  (Returned (contribution_of i (fst (perform (app_request params i) w))),
   snd (perform (app_request params i) w), [app_request params i]).
Proof.
  unfold query_app, app_request. simpl.
  destruct (perform (StubFetch (getAppDO i) (GetLogs params)) w) as [[json|] w1];
    reflexivity.
Qed.

Lemma run_query_all (params : JS.URLSearchParams) (ids : list string) (w : W) :
  run perform (Promise_all (map (query_app params) ids)) w =
  (Returned (zip_with contribution_of ids (fst (settle_all perform params ids w))),
   snd (settle_all perform params ids w), map (app_request params) ids).
Proof.
  revert w. induction ids as [|i ids IH]; intros w; [reflexivity|].
  cbn [map Promise_all]. rewrite run_bind, run_query_app.
  cbn [settle_all]. fold (app_request params i).
  destruct (perform (app_request params i) w) as [o w1].
  cbn [fst snd]. rewrite run_bind, IH.
  destruct (settle_all perform params ids w1) as [os w2].
  simpl. rewrite app_nil_r. reflexivity.
Qed.

(** The aggregated branch of [GET /logs] once the registry listed the apps. *)
Lemma run_get_logs_aggregate (env : Env) (ctxAppId headerAppId : option string)
    (search : JS.URLSearchParams) (ids : list string) (w w1 : W) :
  truthy ctxAppId ∪ truthy headerAppId = None ->
  LOGS_KV env = true ->
  perform (KV ListApps) w = (Fulfilled (Ok ids), w1) ->
  run perform (get_logs env ctxAppId headerAppId search) w =
  (Returned
     (c_json
        (OkLogs
           (JS.slice0
              (JS.sort newest_first
                 (concat
                    (zip_with contribution_of ids
                       (fst (settle_all perform (perAppParams search ids) ids w1)))))
              (globalLimit search)))),
   snd (settle_all perform (perAppParams search ids) ids w1),
   KV ListApps :: map (app_request (perAppParams search ids)) ids).
Proof.
  intros Hnone Hkv Hlist. unfold get_logs. rewrite Hnone, Hkv. cbn [negb].
  rewrite run_mbind. rewrite_run (run_await (KV ListApps) w). rewrite Hlist.
  destruct ids as [|i ids].
  - cbn [zip_with settle_all fst snd concat JS.sort map].
    rewrite slice0_nil. reflexivity.
  - rewrite run_mbind, run_query_all.
    destruct (settle_all perform (perAppParams search (i :: ids)) (i :: ids) w1)
      as [os w2].
    cbn [run mret Prog_ret fst snd]. rewrite app_nil_r. reflexivity.
Qed.

(** *** The aggregated query *)



(** The sort is stable: the entries of one timestamp keep their order. *)
Lemma insert_sorted_stable (t : string) (x : AggregatedLogEntry)
    (l : list AggregatedLogEntry) :
  collation_is_lexical (x :: l) ->
  List.filter (fun e => String.eqb (timestamp (entry e)) t) (JS.insert_sorted newest_first x l) =
  List.filter (fun e => String.eqb (timestamp (entry e)) t) (x :: l).
Proof.
  intros Hcoll. induction l as [|y l IH]; cbn [JS.insert_sorted]; [reflexivity|].
  unfold newest_first at 1.
  rewrite (Hcoll y x) by (rewrite !elem_of_cons; auto).
  destruct (String.leb (timestamp (entry y)) (timestamp (entry x))) eqn:Hyx; [reflexivity|].
  assert (IH' : List.filter (fun e => String.eqb (timestamp (entry e)) t)
                  (JS.insert_sorted newest_first x l) =
                List.filter (fun e => String.eqb (timestamp (entry e)) t) (x :: l)).
  { apply IH. intros a b Ha Hb. apply Hcoll.
    - rewrite elem_of_cons in Ha. rewrite !elem_of_cons. tauto.
    - rewrite elem_of_cons in Hb. rewrite !elem_of_cons. tauto. }
  cbn [List.filter] in *. rewrite IH'.
  destruct (String.eqb_spec (timestamp (entry y)) t) as [Hy|Hy];
    destruct (String.eqb_spec (timestamp (entry x)) t) as [Hx|Hx]; try reflexivity.
  exfalso. rewrite Hx, Hy in Hyx. unfold String.leb in Hyx.
  destruct (String.compare t t) eqn:Hc; try discriminate Hyx.
  pose proof (String.compare_antisym t t) as Ha. rewrite Hc in Ha. discriminate Ha.
Qed.

Lemma sort_stable (t : string) (l : list AggregatedLogEntry) :
  collation_is_lexical l ->
  List.filter (fun e => String.eqb (timestamp (entry e)) t) (JS.sort newest_first l) =
  List.filter (fun e => String.eqb (timestamp (entry e)) t) l.
Proof.
  induction l as [|x l IH]; intros Hcoll; cbn [JS.sort]; [reflexivity|].
  rewrite insert_sorted_stable.
  - cbn [List.filter]. rewrite IH; [reflexivity|].
    intros a b Ha Hb. apply Hcoll; rewrite elem_of_cons; now right.
  - intros a b Ha Hb. apply Hcoll.
    + rewrite elem_of_cons in Ha. rewrite elem_of_cons.
      destruct Ha as [->|Ha]; [now left|right].
      now rewrite <- (sort_perm newest_first l).
    + rewrite elem_of_cons in Hb. rewrite elem_of_cons.
      destruct Hb as [->|Hb]; [now left|right].
      now rewrite <- (sort_perm newest_first l).
Qed.

Lemma registry_lists_Some (env : Env) (w : W) (ids : list string) :
  registry_lists perform env w = Some ids ->
  LOGS_KV env = true /\
  perform (KV ListApps) w = (Fulfilled (Ok ids), snd (perform (KV ListApps) w)).
Proof.
  unfold registry_lists. destruct (LOGS_KV env); [|discriminate].
  destruct (perform (KV ListApps) w) as [[[l|c m]|] w1]; cbn [fst snd];
    intros Heq; inversion Heq; subst; auto.
Qed.

Lemma get_logs_listed (env : Env) (ctxAppId headerAppId : option string)
    (search : JS.URLSearchParams) (ids : list string) (w : W) :
  truthy ctxAppId ∪ truthy headerAppId = None ->
  registry_lists perform env w = Some ids ->
  completion (run perform (get_logs env ctxAppId headerAppId search) w) =
    Returned
      (c_json
         (OkLogs
            (JS.slice0 (JS.sort newest_first (merged_entries perform search ids w))
               (globalLimit search)))) /\
  calls (run perform (get_logs env ctxAppId headerAppId search) w) =
    KV ListApps :: map (app_request (perAppParams search ids)) ids.
Proof.
  intros Hnone Hreg. apply registry_lists_Some in Hreg as [Hkv Hlist].
  rewrite (run_get_logs_aggregate env ctxAppId headerAppId search ids w _ Hnone Hkv Hlist).
  split; reflexivity.
Qed.

Lemma ceil_div_spec (L n : Z) :
  0 < n -> n * (- ((- L) / n) - 1) < L <= n * - ((- L) / n).
Proof.
  intros Hn. pose proof (Z.div_mod (- L) n ltac:(lia)) as Hdiv.
  pose proof (Z.mod_pos_bound (- L) n Hn) as Hmod. nia.
Qed.

Lemma contribution_tagged (i : string) (o : Outcome DOJson) (x : AggregatedLogEntry) :
  x ∈ contribution_of i o -> app_id x = i.
Proof.
  destruct o as [[[e|l|c|d|t]|c m]|]; cbn; try (intros Hx; now inversion Hx).
  intros Hx. apply list_elem_of_fmap in Hx as (e & -> & _). reflexivity.
Qed.

(** C10. An aggregated query whose [limit] parameter is present and parses
    to NaN succeeds, whenever the registry lists the apps, with an empty
    page, whatever the apps hold: the per-app limit is NaN and slicing to a
    NaN end keeps nothing. *)
Theorem unparsable_limit_gives_empty_page
    (env : Env) (ctxAppId headerAppId : option string)
    (search : JS.URLSearchParams) (ids : list string) (w : W) :
  truthy ctxAppId ∪ truthy headerAppId = None ->
  JS.has "limit" search = true ->
  JS.parseInt (default "" (JS.get "limit" search)) = JS.NaN ->
  registry_lists perform env w = Some ids ->
  completion (run perform (get_logs env ctxAppId headerAppId search) w) =
    Returned (mkResponse 200 (OkLogs [])) /\
  perAppLimit search ids = JS.NaN /\
  (forall l : list AggregatedLogEntry, JS.slice0 l (globalLimit search) = []).
Proof.
  intros Hadmin Hhas Hnan Hreg.
  assert (HL : globalLimit search = JS.NaN).
  { unfold globalLimit. now rewrite Hhas. }
  destruct (get_logs_listed env ctxAppId headerAppId search ids w Hadmin Hreg)
    as [Hdone _].
  split; [|split].
  - rewrite Hdone, HL. reflexivity.
  - unfold perAppLimit. rewrite HL. reflexivity.
  - intros l. rewrite HL. reflexivity.
Qed.

(** *** Access with the key of another app *)

Lemma app_id_mismatch_other (a path : string) :
  a <> "" -> path <> a -> app_id_mismatch (Some a) path = true.
Proof.
  intros Ha Hp. unfold app_id_mismatch, truthy.
  destruct (String.eqb_spec a ""); [congruence|].
  destruct (String.eqb_spec path a); [congruence|reflexivity].
Qed.

(** C9. A request authenticated with the key of app [a] (a non-empty id, as
    the ids of registered apps are) that names another app in its path is
    answered 403 UNAUTHORIZED by the statistics, prune, health-URL,
    app-details and delete handlers, without any call to an actor or to the
    registry and with the state left as it was. *)
Theorem tenant_key_cannot_reach_other_app
    (env : Env) (a path : string) (daysQuery before : option string)
    (urls : option (list string)) (w : W) :
  a <> "" ->
  path <> a ->
  let denied : Completion Response * W * list Effect :=
    (Returned (mkResponse 403 (Failed UNAUTHORIZED "App ID mismatch")), w, []) in
  run perform (get_stats path (Some a) daysQuery) w = denied /\
  run perform (post_prune path (Some a) before) w = denied /\
  run perform (post_health_urls path (Some a) urls) w = denied /\
  run perform (get_app env path (Some a)) w = denied /\
  run perform (delete_app env path (Some a)) w = denied.
Proof.
  intros Ha Hp denied.
  pose proof (app_id_mismatch_other a path Ha Hp) as Hm.
  unfold get_stats, post_prune, post_health_urls, get_app, delete_app, strict_neq.
  rewrite Hm. destruct (String.eqb_spec path a); [congruence|].
  repeat split; reflexivity.
Qed.

(** *** The details of an app *)

Lemma safeData_lookup (data : AppObject) (k : string) :
  safeData data !! k = if decide (k = "api_key") then None else data !! k.
Proof.
  unfold safeData. destruct (decide (k = "api_key")) as [->|Hk].
  - apply lookup_delete_eq.
  - now apply lookup_delete_ne.
Qed.

Lemma run_get_app_found (env : Env) (appId : string) (auth : option string)
    (data : AppObject) (w : W) :
  app_id_mismatch auth appId = false ->
  LOGS_KV env = true ->
  fst (perform (KV (GetApp appId)) w) = Fulfilled (Ok (Some data)) ->
  completion (run perform (get_app env appId auth) w) =
    Returned (mkResponse 200 (OkApp (safeData data))).
Proof.
  intros Hm Hkv Hget. unfold get_app. rewrite Hm, Hkv. cbn [negb].
  rewrite run_mbind. rewrite_run (run_await (KV (GetApp appId)) w).
  destruct (perform (KV (GetApp appId)) w) as [o w1]. cbn [fst] in Hget.
  subst o. reflexivity.
Qed.

(** C8. The details of a registered app are answered with every field of
    its registration except [api_key]; two registrations that differ only in
    [api_key] are answered alike. *)
Theorem app_details_hide_api_key
    (env : Env) (appId : string) (auth : option string)
    (data1 data2 : AppObject) (w1 w2 : W) :
  fst (perform (KV (GetApp appId)) w1) = Fulfilled (Ok (Some data1)) ->
  fst (perform (KV (GetApp appId)) w2) = Fulfilled (Ok (Some data2)) ->
  (forall k, k <> "api_key" -> data1 !! k = data2 !! k) ->
  completion (run perform (get_app env appId auth) w1) =
    completion (run perform (get_app env appId auth) w2) /\
  (app_id_mismatch auth appId = false -> LOGS_KV env = true ->
   exists shown : AppObject,
     completion (run perform (get_app env appId auth) w1) =
       Returned (mkResponse 200 (OkApp shown)) /\
     shown !! "api_key" = None /\
     (forall k, k <> "api_key" -> shown !! k = data1 !! k)).
Proof.
  intros H1 H2 Hsame. split.
  - destruct (app_id_mismatch auth appId) eqn:Hm.
    { unfold get_app. rewrite Hm. reflexivity. }
    destruct (LOGS_KV env) eqn:Hkv.
    2:{ unfold get_app. rewrite Hm, Hkv. reflexivity. }
    rewrite (run_get_app_found env appId auth data1 w1 Hm Hkv H1).
    rewrite (run_get_app_found env appId auth data2 w2 Hm Hkv H2).
    do 3 f_equal. apply map_eq. intros k. rewrite !safeData_lookup.
    destruct (decide (k = "api_key")); [reflexivity|now apply Hsame].
  - intros Hm Hkv. exists (safeData data1). split; [|split].
    + now apply run_get_app_found.
    + rewrite safeData_lookup. reflexivity.
    + intros k Hk. rewrite safeData_lookup. destruct (decide (k = "api_key")); congruence.
Qed.

(** *** Writes and their statistics *)

Lemma run_post_logs (appId : string) (b : LogsBody) (w : W) :
  run perform (post_logs appId b) w =
  match perform (StubFetch (getAppDO appId) (write_request b)) w with
  | (Fulfilled result, w1) =>
      if ok result then
        match perform (StubFetch (getAppDO appId) (stats_request b)) w1 with
        | (Fulfilled _, w2) =>
            (Returned (c_json (Forwarded result)), w2,
             [StubFetch (getAppDO appId) (write_request b);
              StubFetch (getAppDO appId) (stats_request b)])
        | (Rejected, w2) =>
            (Thrown, w2,
             [StubFetch (getAppDO appId) (write_request b);
              StubFetch (getAppDO appId) (stats_request b)])
        end
      else
        (Returned (c_json (Forwarded result)), w1,
         [StubFetch (getAppDO appId) (write_request b)])
  | (Rejected, w1) => (Thrown, w1, [StubFetch (getAppDO appId) (write_request b)])
  end.
Proof.
  destruct b as [input|inputs];
    cbn [post_logs write_request stats_request run mbind Prog_bind bind await].
  - destruct (perform (StubFetch (getAppDO appId) (PostLog input)) w)
      as [[result|] w1]; cbn [run bind]; [|reflexivity].
    destruct (ok result); cbn [run bind mbind Prog_bind await mret Prog_ret];
      [|reflexivity].
    destruct (perform (StubFetch (getAppDO appId)
                         (PostStats (StatsLevel (in_level input)))) w1)
      as [[r2|] w2]; reflexivity.
  - destruct (perform (StubFetch (getAppDO appId) (PostLogs inputs)) w)
      as [[result|] w1]; cbn [run bind]; [|reflexivity].
    destruct (ok result); cbn [run bind mbind Prog_bind await mret Prog_ret];
      [|reflexivity].
    destruct (perform (StubFetch (getAppDO appId)
                         (PostStats (StatsCounts (countByLevel inputs)))) w1)
      as [[r2|] w2]; reflexivity.
Qed.

Lemma run_rpc_log (env : Env) (appId : string) (input : LogInput) (w : W) :
  run perform (rpc_log env appId input) w =
  match perform (StubFetch (getAppDO appId) (PostLog input)) w with
  | (Fulfilled result, w1) =>
      if ok result && LOGS_KV env then
        match perform (KV (IncrementStats appId (in_level input))) w1 with
        | (Fulfilled _, w2) =>
            (Returned (result_data result), w2,
             [StubFetch (getAppDO appId) (PostLog input);
              KV (IncrementStats appId (in_level input))])
        | (Rejected, w2) =>
            (Thrown, w2,
             [StubFetch (getAppDO appId) (PostLog input);
              KV (IncrementStats appId (in_level input))])
        end
      else
        (Returned (result_data result), w1, [StubFetch (getAppDO appId) (PostLog input)])
  | (Rejected, w1) => (Thrown, w1, [StubFetch (getAppDO appId) (PostLog input)])
  end.
Proof.
  cbn [rpc_log run mbind Prog_bind bind await].
  destruct (perform (StubFetch (getAppDO appId) (PostLog input)) w) as [[result|] w1];
    cbn [run bind]; [|reflexivity].
  destruct (ok result && LOGS_KV env); cbn [run bind mbind Prog_bind await mret Prog_ret];
    [|reflexivity].
  destruct (perform (KV (IncrementStats appId (in_level input))) w1) as [[r2|] w2];
    reflexivity.
Qed.

Lemma run_rpc_logBatch (env : Env) (appId : string) (inputs : list LogInput) (w : W) :
  run perform (rpc_logBatch env appId inputs) w =
  match perform (StubFetch (getAppDO appId) (PostLogs inputs)) w with
  | (Fulfilled result, w1) =>
      if ok result && LOGS_KV env then
        match perform (KV (IncrementStatsBatch appId (batch_counts inputs))) w1 with
        | (Fulfilled _, w2) =>
            (Returned (result_data result), w2,
             [StubFetch (getAppDO appId) (PostLogs inputs);
              KV (IncrementStatsBatch appId (batch_counts inputs))])
        | (Rejected, w2) =>
            (Thrown, w2,
             [StubFetch (getAppDO appId) (PostLogs inputs);
              KV (IncrementStatsBatch appId (batch_counts inputs))])
        end
      else
        (Returned (result_data result), w1, [StubFetch (getAppDO appId) (PostLogs inputs)])
  | (Rejected, w1) => (Thrown, w1, [StubFetch (getAppDO appId) (PostLogs inputs)])
  end.
Proof.
  cbn [rpc_logBatch run mbind Prog_bind bind await].
  destruct (perform (StubFetch (getAppDO appId) (PostLogs inputs)) w) as [[result|] w1];
    cbn [run bind]; [|reflexivity].
  destruct (ok result && LOGS_KV env); cbn [run bind mbind Prog_bind await mret Prog_ret];
    [|reflexivity].
  destruct (perform (KV (IncrementStatsBatch appId (batch_counts inputs))) w1)
    as [[r2|] w2]; reflexivity.
Qed.

End Runs.

(** *** Counting the levels of a batch *)

Lemma weight_cons (l : string) (c : LevelCount) (acc : list LevelCount) :
  weight l (c :: acc) =
  ((if String.eqb (lc_level c) l then lc_count c else 0) + weight l acc)%nat.
Proof.
  unfold weight. cbn [List.filter]. destruct (String.eqb (lc_level c) l); reflexivity.
Qed.

Lemma weight_app (l : string) (acc acc' : list LevelCount) :
  weight l (acc ++ acc') = (weight l acc + weight l acc')%nat.
Proof.
  unfold weight. now rewrite List.filter_app, map_app, list_sum_app.
Qed.

Lemma total_cons (c : LevelCount) (acc : list LevelCount) :
  total (c :: acc) = (lc_count c + total acc)%nat.
Proof. reflexivity. Qed.

Lemma total_app (acc acc' : list LevelCount) :
  total (acc ++ acc') = (total acc + total acc')%nat.
Proof. unfold total. now rewrite map_app, list_sum_app. Qed.

Lemma find_level_None (l : string) (acc : list LevelCount) :
  List.find (fun c => String.eqb (lc_level c) l) acc = None -> l ∉ levels acc.
Proof.
  unfold levels. induction acc as [|c acc IH]; cbn [List.find map].
  - intros _ Hin. inversion Hin.
  - destruct (String.eqb_spec (lc_level c) l) as [Heq|Hne]; [discriminate|].
    intros Hf. rewrite not_elem_of_cons. split; [congruence|now apply IH].
Qed.

Lemma find_level_Some (l : string) (acc : list LevelCount) (c : LevelCount) :
  List.find (fun c => String.eqb (lc_level c) l) acc = Some c -> l ∈ levels acc.
Proof.
  intros Hf. apply find_some in Hf as [Hin Heq].
  apply String.eqb_eq in Heq. subst l. apply list_elem_of_In. now apply in_map.
Qed.

Lemma weight_absent (l : string) (acc : list LevelCount) :
  l ∉ levels acc -> weight l acc = 0%nat.
Proof.
  unfold levels. induction acc as [|c acc IH]; [reflexivity|].
  cbn [map]. rewrite not_elem_of_cons, weight_cons. intros [Hne Hnot].
  destruct (String.eqb_spec (lc_level c) l); [congruence|]. now rewrite IH.
Qed.

Lemma levels_increment_first (l : string) (acc : list LevelCount) :
  levels (increment_first l acc) = levels acc.
Proof.
  unfold levels. induction acc as [|c acc IH]; cbn [increment_first map]; [reflexivity|].
  destruct (String.eqb (lc_level c) l); cbn [map lc_level]; [reflexivity|].
  now rewrite IH.
Qed.

Lemma weight_increment_first (l l' : string) (acc : list LevelCount) :
  l ∈ levels acc ->
  weight l' (increment_first l acc) =
  (weight l' acc + if String.eqb l l' then 1 else 0)%nat.
Proof.
  unfold levels. induction acc as [|c acc IH]; cbn [increment_first map].
  - intros Hin. inversion Hin.
  - rewrite elem_of_cons. intros Hin.
    destruct (String.eqb_spec (lc_level c) l) as [Hc|Hc].
    + rewrite !weight_cons. cbn [lc_level lc_count]. rewrite Hc.
      destruct (String.eqb l l'); lia.
    + destruct Hin as [Hin|Hin]; [congruence|].
      rewrite !weight_cons, (IH Hin). lia.
Qed.

Lemma total_increment_first (l : string) (acc : list LevelCount) :
  l ∈ levels acc -> total (increment_first l acc) = S (total acc).
Proof.
  unfold levels. induction acc as [|c acc IH]; cbn [increment_first map].
  - intros Hin. inversion Hin.
  - rewrite elem_of_cons. intros Hin.
    destruct (String.eqb_spec (lc_level c) l) as [Hc|Hc].
    + rewrite !total_cons. cbn [lc_count]. lia.
    + destruct Hin as [Hin|Hin]; [congruence|].
      rewrite !total_cons, (IH Hin). lia.
Qed.

Lemma weight_count_step (l' : string) (acc : list LevelCount) (e : LogInput) :
  weight l' (count_step acc e) =
  (weight l' acc + if String.eqb (in_level e) l' then 1 else 0)%nat.
Proof.
  unfold count_step.
  destruct (List.find _ acc) as [c|] eqn:Hf.
  - apply weight_increment_first. eapply find_level_Some, Hf.
  - rewrite weight_app, weight_cons. cbn [lc_level lc_count].
    destruct (String.eqb (in_level e) l'); cbn; lia.
Qed.

Lemma total_count_step (acc : list LevelCount) (e : LogInput) :
  total (count_step acc e) = S (total acc).
Proof.
  unfold count_step. destruct (List.find _ acc) as [c|] eqn:Hf.
  - apply total_increment_first. eapply find_level_Some, Hf.
  - rewrite total_app. cbn. lia.
Qed.

Lemma levels_count_step_NoDup (acc : list LevelCount) (e : LogInput) :
  NoDup (levels acc) -> NoDup (levels (count_step acc e)).
Proof.
  intros Hnd. unfold count_step.
  destruct (List.find _ acc) as [c|] eqn:Hf.
  - now rewrite levels_increment_first.
  - apply find_level_None in Hf. unfold levels in *. rewrite map_app. cbn [map].
    apply NoDup_app. split; [exact Hnd|]. split.
    + intros x Hx Hx'. apply list_elem_of_singleton in Hx'. subst x. exact (Hf Hx).
    + apply NoDup_singleton.
Qed.

Lemma batch_fold_spec (entries : list LogInput) (acc : list LevelCount) :
  NoDup (levels acc) ->
  NoDup (levels (fold_left count_step entries acc)) /\
  (forall l, weight l (fold_left count_step entries acc) =
             (weight l acc + occurrences l entries)%nat) /\
  total (fold_left count_step entries acc) = (total acc + length entries)%nat.
Proof.
  revert acc. induction entries as [|e entries IH]; intros acc Hnd; cbn [fold_left].
  - unfold occurrences. cbn. repeat split; [assumption|intros; lia|lia].
  - destruct (IH (count_step acc e) (levels_count_step_NoDup acc e Hnd))
      as (Hnd' & Hw & Ht).
    split; [exact Hnd'|]. split.
    + intros l. rewrite Hw, weight_count_step. unfold occurrences. cbn [List.filter].
      destruct (String.eqb (in_level e) l); cbn [length]; lia.
    + rewrite Ht, total_count_step. cbn [length]. lia.
Qed.

Lemma weight_of_member (acc : list LevelCount) (c : LevelCount) :
  NoDup (levels acc) -> c ∈ acc -> weight (lc_level c) acc = lc_count c.
Proof.
  unfold levels. induction acc as [|c' acc IH].
  - intros _ Hin. inversion Hin.
  - cbn [map]. rewrite NoDup_cons, elem_of_cons, weight_cons. intros [Hnot Hnd] Hin.
    destruct Hin as [->|Hin].
    + rewrite String.eqb_refl, (weight_absent _ _ Hnot). lia.
    + destruct (String.eqb_spec (lc_level c') (lc_level c)) as [Heq|Hne].
      * exfalso. apply Hnot. rewrite Heq. now apply list_elem_of_fmap_2.
      * now rewrite IH.
Qed.

Lemma weight_positive_member (l : string) (acc : list LevelCount) :
  (0 < weight l acc)%nat -> l ∈ levels acc.
Proof.
  intros Hpos. destruct (decide (l ∈ levels acc)) as [Hin|Hnot]; [exact Hin|].
  rewrite (weight_absent _ _ Hnot) in Hpos. lia.
Qed.

Lemma occurrences_positive (l : string) (entries : list LogInput) :
  (0 < occurrences l entries)%nat <-> l ∈ map in_level entries.
Proof.
  unfold occurrences. induction entries as [|e entries IH]; cbn [List.filter map length].
  - split; [lia|intros Hin; inversion Hin].
  - rewrite elem_of_cons.
    destruct (String.eqb_spec (in_level e) l) as [Heq|Hne]; cbn [length].
    + split; [auto|lia].
    + rewrite IH. split; [auto|]. intros [Heq|Hin]; [congruence|exact Hin].
Qed.

Lemma levels_count_step_from (l : string) (acc : list LevelCount) (e : LogInput) :
  l ∈ levels (count_step acc e) -> l ∈ levels acc \/ l = in_level e.
Proof.
  unfold count_step. destruct (List.find _ acc) as [c|].
  - rewrite levels_increment_first. auto.
  - unfold levels. rewrite map_app, elem_of_app. cbn [map].
    rewrite list_elem_of_singleton. auto.
Qed.

Lemma levels_fold_from (l : string) (entries : list LogInput) (acc : list LevelCount) :
  l ∈ levels (fold_left count_step entries acc) ->
  l ∈ levels acc \/ l ∈ map in_level entries.
Proof.
  revert acc. induction entries as [|e entries IH]; intros acc; cbn [fold_left map].
  - auto.
  - intros Hin. rewrite elem_of_cons.
    destruct (IH _ Hin) as [Hacc|Hrest]; [|auto].
    destruct (levels_count_step_from _ _ _ Hacc); auto.
Qed.

Section BatchRuns.

Context {W : Type}.
Variable perform : forall e : Effect, W -> Outcome (Answer e) * W.

(** C6. The counts a batch write pre-aggregates hold one element for each
    level of the batch and no other, each with the number of entries of its
    level, and they sum to the number of entries.  When the actor accepts the
    batch (and, for the RPC entrypoint, the KV namespace is bound) the write
    is followed by exactly one increment call carrying the counts: one call
    for the batch, not one for each entry. *)
Theorem batch_counts_one_per_level
    (env : Env) (appId : string) (entries : list LogInput) (w : W) :
  accepted (fst (perform (StubFetch (getAppDO appId) (PostLogs entries)) w)) = true ->
  LOGS_KV env = true ->
  let counts := batch_counts entries in
  NoDup (levels counts) /\
  (forall l, l ∈ levels counts <-> l ∈ map in_level entries) /\
  (forall c, c ∈ counts -> lc_count c = occurrences (lc_level c) entries) /\
  total counts = length entries /\
  calls (run perform (rpc_logBatch env appId entries) w) =
    [StubFetch (getAppDO appId) (PostLogs entries);
     KV (IncrementStatsBatch appId counts)] /\
  calls (run perform (post_logs appId (Batch entries)) w) =
    [StubFetch (getAppDO appId) (PostLogs entries);
     StubFetch (getAppDO appId) (PostStats (StatsCounts (countByLevel entries)))].
Proof.
  intros Hacc Hkv counts.
  destruct (batch_fold_spec entries [] (NoDup_nil_2 : NoDup (levels [])))
    as (Hnd & Hw & Ht).
  fold (batch_counts entries) in Hnd, Hw, Ht. fold counts in Hnd, Hw, Ht.
  assert (Hcount : forall c, c ∈ counts -> lc_count c = occurrences (lc_level c) entries).
  { intros c Hc. rewrite <- (weight_of_member counts c Hnd Hc), Hw. reflexivity. }
  split; [exact Hnd|]. split; [|split; [exact Hcount|split; [exact Ht|]]].
  - intros l. split.
    + intros Hin. destruct (levels_fold_from l entries [] Hin) as [Hnil|Hl]; [|exact Hl].
      inversion Hnil.
    + intros Hin. apply weight_positive_member. rewrite Hw.
      apply occurrences_positive in Hin. cbn. lia.
  - rewrite run_rpc_logBatch, (run_post_logs perform appId (Batch entries) w).
    cbn [write_request stats_request].
    destruct (perform (StubFetch (getAppDO appId) (PostLogs entries)) w)
      as [[result|] w1]; cbn [fst accepted] in Hacc; [|discriminate].
    rewrite Hacc, Hkv. cbn [andb].
    destruct (perform (KV (IncrementStatsBatch appId (batch_counts entries))) w1)
      as [[a1|] w2];
      destruct (perform (StubFetch (getAppDO appId)
                           (PostStats (StatsCounts (countByLevel entries)))) w1)
        as [[a2|] w3]; split; reflexivity.
Qed.

End BatchRuns.

(** ** The actors *)

Lemma actor_of_insert (m : gmap DOId Actor) (k d : DOId) (a : Actor) :
  actor_of (<[k := a]> m) d = if decide (k = d) then a else actor_of m d.
Proof.
  unfold actor_of. rewrite lookup_insert. destruct (decide (k = d)); reflexivity.
Qed.



Lemma run_post_prune_world (appId b : string) (before : option string) (w : World) :
  truthy before = Some b ->
  run perform_world (post_prune appId (Some appId) before) w =
  (Returned
     (c_json (Forwarded (fst (pruneLogs (Some b) (actor_of (actors w) (getAppDO appId)))))),
   mkWorld
     (<[getAppDO appId := snd (pruneLogs (Some b) (actor_of (actors w) (getAppDO appId)))]>
        (actors w))
     (S (served w)) (kv_state w),
   [StubFetch (getAppDO appId) (PostPrune (Some b))]).
Proof.
  intros Hb. unfold post_prune, strict_neq. rewrite String.eqb_refl, Hb. cbn [negb].
  rewrite run_mbind.
  rewrite_run (run_await perform_world (StubFetch (getAppDO appId) (PostPrune (Some b))) w).
  unfold perform_world. cbn [actor_fetch].
  destruct (pruneLogs (Some b) (actor_of (actors w) (getAppDO appId))) as [json a'].
  reflexivity.
Qed.

(** C7. A prune request of the authenticated app with no [before] is refused
    by the gateway with 400 BAD_REQUEST before any actor is called; with a
    [before] that does not parse, the actor answers a validation error, which
    the gateway forwards, and no row is deleted; with a [before] that parses,
    the rows left are those whose timestamp is not below [before], and the
    answer counts the deleted rows.  No other actor changes, and an actor
    asked to prune without [before] answers a validation error and keeps its
    rows. *)
Theorem prune_requires_before (appId : string) (before : option string) (w : World) :
  let r := run perform_world (post_prune appId (Some appId) before) w in
  let mine := actor_of (actors w) (getAppDO appId) in
  let mine' := actor_of (actors (final r)) (getAppDO appId) in
  match truthy before with
  | None =>
      exists msg, r = (Returned (mkResponse 400 (Failed BAD_REQUEST msg)), w, [])
  | Some b =>
      if parsable b then
        completion r =
          Returned
            (mkResponse 200
               (Forwarded (Ok (DDeleted (length (logs mine) - length (logs mine')))))) /\
        logs mine' = List.filter (fun e => negb (String.ltb (timestamp e) b)) (logs mine) /\
        (forall e, e ∈ logs mine' <-> e ∈ logs mine /\ String.ltb (timestamp e) b = false)
      else
        (exists msg,
           completion r =
             Returned (mkResponse 200 (Forwarded (Err VALIDATION_ERROR msg)))) /\
        logs mine' = logs mine
  end /\
  (forall d, d <> getAppDO appId ->
             actor_of (actors (final r)) d = actor_of (actors w) d) /\
  (forall a, exists msg, pruneLogs None a = (Err VALIDATION_ERROR msg, a)).
Proof.
  intros r mine mine'. subst r mine'.
  match goal with
  | |- ?X /\ ?Y /\ _ =>
      cut (X /\ Y);
      [intros [HX HY]; split; [exact HX|split; [exact HY|]];
       intros a; eexists; reflexivity|]
  end.
  destruct (truthy before) as [b|] eqn:Hb.
  2:{ unfold post_prune, strict_neq. rewrite String.eqb_refl, Hb.
      split; [eexists; reflexivity|]. intros d _. reflexivity. }
  rewrite (run_post_prune_world appId b before w Hb).
  unfold completion, final. cbn [fst snd actors]. fold mine.
  assert (Hother : forall a' d, d <> getAppDO appId ->
            actor_of (<[getAppDO appId := a']> (actors w)) d = actor_of (actors w) d).
  { intros a' d Hd. rewrite actor_of_insert.
    destruct (decide (getAppDO appId = d)); [congruence|reflexivity]. }
  rewrite actor_of_insert.
  destruct (decide (getAppDO appId = getAppDO appId)) as [_|Hne]; [|congruence].
  split; [|intros d Hd; now apply Hother].
  unfold pruneLogs. destruct (parsable b); cbn [fst snd logs].
  - split; [reflexivity|]. split; [reflexivity|].
    intros e. rewrite !list_elem_of_In, List.filter_In, negb_true_iff. tauto.
  - split; [eexists; reflexivity|reflexivity].
Qed.

End Properties.

(** * Further properties of the gateway and of the RPC entrypoint *)

(** ** Numbers written and read back *)

Lemma trimStart_not_space (c : ascii) (s : string) :
  (JS.byte_of c <? 128)%N = true -> JS.ws1 c = false ->
  JS.trimStart (String c s) = String c s.
Proof.
  intros Hc Hw. cbn [JS.trimStart]. rewrite Hw.
  assert (H2 : forall c2, JS.ws2 c c2 = false).
  { intros c2. unfold JS.ws2. apply N.ltb_lt in Hc.
    destruct (N.eqb_spec (JS.byte_of c) 194); [lia|reflexivity]. }
  assert (H3 : forall c2 c3, JS.ws3 c c2 c3 = false).
  { intros c2 c3. unfold JS.ws3. apply N.ltb_lt in Hc.
    destruct (N.eqb_spec (JS.byte_of c) 225); [lia|].
    destruct (N.eqb_spec (JS.byte_of c) 226); [lia|].
    destruct (N.eqb_spec (JS.byte_of c) 227); [lia|].
    destruct (N.eqb_spec (JS.byte_of c) 239); [lia|]. reflexivity. }
  destruct s as [|c2 s]; [reflexivity|]. rewrite H2.
  destruct s as [|c3 s]; [reflexivity|]. now rewrite H3.
Qed.

Ltac compute_digit :=
  match goal with
  | |- context [JS.digit_value ?c] =>
      let v := eval vm_compute in (JS.digit_value c) in
      change (JS.digit_value c) with v
  end.

Lemma digits_value_of_uint_acc (u : Decimal.uint) (p : positive) :
  JS.digits_value (NilEmpty.string_of_uint u) (Z.pos p) = Z.pos (Pos.of_uint_acc u p).
Proof.
  revert p. induction u as [|u IH|u IH|u IH|u IH|u IH|u IH|u IH|u IH|u IH|u IH];
    intros p; [reflexivity|..];
    cbn [NilEmpty.string_of_uint Pos.of_uint_acc];
    change (JS.digits_value (String ?c ?s) ?a)
      with (JS.digits_value s (10 * a + JS.digit_value c));
    rewrite <- IH; f_equal; compute_digit; lia.
Qed.

Lemma digits_value_of_uint (u : Decimal.uint) :
  JS.digits_value (NilEmpty.string_of_uint u) 0 = Z.of_N (Pos.of_uint u).
Proof.
  induction u as [|u IH|u IH|u IH|u IH|u IH|u IH|u IH|u IH|u IH|u IH];
    [reflexivity|exact IH|..];
    cbn [NilEmpty.string_of_uint Pos.of_uint];
    change (JS.digits_value (String ?c ?s) ?a)
      with (JS.digits_value s (10 * a + JS.digit_value c));
    compute_digit; apply digits_value_of_uint_acc.
Qed.

(** A string that starts with a digit is read as its digits, and as their
    opposite after a minus sign. *)
Lemma parseInt_digits (c : ascii) (s : string) :
  JS.is_digit c = true ->
  JS.parseInt (String c s) = JS.Num (JS.digits_value (String c s) 0) /\
  JS.parseInt (String "-" (String c s)) = JS.Num (- JS.digits_value (String c s) 0).
Proof.
  intros Hd.
  assert (Hr : (48 <= JS.byte_of c <= 57)%N).
  { unfold JS.is_digit in Hd. apply andb_true_iff in Hd as [H1 H2].
    apply N.leb_le in H1, H2. lia. }
  assert (Hlt : (JS.byte_of c <? 128)%N = true) by (apply N.ltb_lt; lia).
  assert (Hw : JS.ws1 c = false).
  { unfold JS.ws1. cbv zeta.
    destruct (N.leb_spec (JS.byte_of c) 13); [lia|].
    destruct (N.eqb_spec (JS.byte_of c) 32); [lia|].
    now rewrite andb_false_r. }
  assert (Hm : c <> "-"%char)
    by (intros ->; change (JS.byte_of "-") with 45%N in Hr; lia).
  assert (Hp : c <> "+"%char)
    by (intros ->; change (JS.byte_of "+") with 43%N in Hr; lia).
  split.
  - unfold JS.parseInt. rewrite (trimStart_not_space c s Hlt Hw).
    assert (E : match String c s with
                | String "+"%char r => (1, r)
                | String "-"%char r => (-1, r)
                | _ => (1, String c s)
                end = (1, String c s)).
    { destruct c as [[] [] [] [] [] [] [] []]; try reflexivity; congruence. }
    rewrite E. cbn [JS.starts_with_digit]. rewrite Hd. f_equal; lia.
  - unfold JS.parseInt. rewrite (trimStart_not_space "-" (String c s)) by reflexivity.
    cbn [JS.starts_with_digit]. rewrite Hd. f_equal; lia.
Qed.

Lemma string_of_uint_digits (u : Decimal.uint) :
  exists c s, NilZero.string_of_uint u = String c s /\ JS.is_digit c = true /\
              JS.digits_value (String c s) 0 = Z.of_N (Pos.of_uint u).
Proof.
  pose proof (digits_value_of_uint u) as Hv.
  destruct u; cbn [NilZero.string_of_uint NilEmpty.string_of_uint] in *;
    eexists _, _; (split; [reflexivity|]); (split; [reflexivity|]);
    first [exact Hv | reflexivity].
Qed.

(** [parseInt(String(x), 10)] is [x]. *)
Lemma parseInt_String (x : JS.number) : JS.parseInt (JS.String_ x) = x.
Proof.
  destruct x as [|z]; [reflexivity|]. unfold JS.String_.
  destruct z as [|p|p]; cbn [Z.to_int NilZero.string_of_int].
  - reflexivity.
  - destruct (string_of_uint_digits (Pos.to_uint p)) as (c & s & -> & Hd & Hv).
    rewrite (proj1 (parseInt_digits c s Hd)), Hv.
    rewrite DecimalPos.Unsigned.of_to. reflexivity.
  - destruct (string_of_uint_digits (Pos.to_uint p)) as (c & s & -> & Hd & Hv).
    rewrite (proj2 (parseInt_digits c s Hd)), Hv.
    rewrite DecimalPos.Unsigned.of_to. reflexivity.
Qed.




(** ** URLSearchParams, read by [get] and [has] *)

Lemma get_head (name : string) (p : JS.URLSearchParams) :
  JS.get name p = head (JS.getAll name p).
Proof.
  unfold JS.getAll. induction p as [|[k v] p IH]; [reflexivity|].
  cbn [JS.get List.filter fst]. destruct (String.eqb k name); [reflexivity|exact IH].
Qed.

Lemma has_getAll (name : string) (p : JS.URLSearchParams) :
  JS.has name p = match JS.getAll name p with [] => false | _ :: _ => true end.
Proof.
  unfold JS.has, JS.getAll. induction p as [|[k v] p IH]; [reflexivity|].
  cbn [existsb List.filter fst]. destruct (String.eqb k name); [reflexivity|exact IH].
Qed.

Lemma ceil_div_safe (z n : Z) : 0 < n -> Z.abs (- ((- z) / n)) <= Z.abs z.
Proof.
  intros Hn. pose proof (ceil_div_spec z n Hn) as Hq.
  destruct (Z.le_gt_cases 0 z) as [Hz|Hz].
  - assert (0 <= - ((- z) / n)) by nia. nia.
  - assert (- ((- z) / n) <= 0) by nia. nia.
Qed.

(** X5. The limit the gateway writes into the per-app query string reads
    back, by [parseInt(_, 10)], as the per-app limit, when the global limit
    is NaN or a safe integer: [parseInt] reads what [String] prints of NaN
    and of a safe integer as that number, the per-app parameters hold the
    text of the per-app limit under [limit], and the per-app limit is NaN or
    a safe integer too. *)
Theorem per_app_limit_reads_back (search : JS.URLSearchParams) (ids : list string) :
  ids <> [] ->
  safe_number (globalLimit search) ->
  (forall x, safe_number x -> JS.parseInt (JS.String_ x) = x) /\
  JS.get "limit" (perAppParams search ids) = Some (JS.String_ (perAppLimit search ids)) /\
  globalLimit (perAppParams search ids) = perAppLimit search ids /\
  safe_number (perAppLimit search ids).
Proof.
  intros Hne Hsafe.
  assert (Hall : JS.getAll "limit" (perAppParams search ids) =
                 [JS.String_ (perAppLimit search ids)]).
  { unfold perAppParams. rewrite getAll_delete_ne by discriminate. apply getAll_set_eq. }
  split; [intros x _; apply parseInt_String|]. split; [|split].
  - now rewrite get_head, Hall.
  - unfold globalLimit at 1. rewrite has_getAll, get_head, Hall. cbn [head default].
    apply parseInt_String.
  - unfold perAppLimit. destruct (globalLimit search) as [|z]; [exact I|].
    cbn [JS.Math_ceil_div JS.Math_max safe_number] in *.
    assert (Hn : 0 < Z.of_nat (length ids)) by (destruct ids; [congruence|cbn [length]; lia]).
    pose proof (ceil_div_safe z _ Hn). lia.
Qed.

Section FurtherProperties.

Context {P : Platform}.

(** Rewriting with a lemma about [run] at a given call, the type of the
    answer computed first. *)
Ltac rewrite_at_call lem :=
  let E := fresh "E" in
  pose proof lem as E; cbn [Answer KVAnswer] in E; rewrite E; clear E.

(** ** Slices and sorted merges *)

Lemma slice0_is_take {A} (l : list A) (e : JS.number) :
  exists k, JS.slice0 l e = take k l.
Proof.
  destruct e as [|z]; cbn [JS.slice0].
  - exists 0%nat. reflexivity.
  - destruct (z <? 0); eexists; reflexivity.
Qed.

Lemma merged_from_apps (ids : list string) (os : list (Outcome DOJson))
    (x : AggregatedLogEntry) :
  x ∈ concat (zip_with contribution_of ids os) ->
  exists n l, ids !! n = Some (app_id x) /\
              os !! n = Some (Fulfilled (Ok (DEntries l))) /\ entry x ∈ l.
Proof.
  intros Hx. apply list_elem_of_In, in_concat in Hx as (c & Hc & Hxc).
  apply list_elem_of_In in Hc, Hxc.
  apply elem_of_lookup_zip_with in Hc as (n & i & o & -> & Hi & Ho).
  exists n. destruct o as [[[e|l|c|d|t]|c m]|]; cbn in Hxc;
    try (now inversion Hxc).
  apply list_elem_of_fmap in Hxc as (e & -> & He). exists l. cbn. auto.
Qed.

(** Inserting an entry keeps the order of the entries of each timestamp,
    when comparing a timestamp with itself does not give a positive
    number. *)
Lemma insert_sorted_keeps_ties (t : string) (x : AggregatedLogEntry)
    (l : list AggregatedLogEntry) :
  localeCompare (timestamp (entry x)) (timestamp (entry x)) <= 0 ->
  at_time t (JS.insert_sorted newest_first x l) = at_time t (x :: l).
Proof.
  intros Hrefl. unfold at_time.
  induction l as [|y l IH]; cbn [JS.insert_sorted]; [reflexivity|].
  destruct (newest_first x y <=? 0) eqn:Hxy; [reflexivity|].
  cbn [List.filter] in *. rewrite IH.
  destruct (String.eqb_spec (timestamp (entry y)) t) as [Hy|Hy];
    destruct (String.eqb_spec (timestamp (entry x)) t) as [Hx|Hx]; try reflexivity.
  exfalso. unfold newest_first in Hxy. rewrite Hy, <- Hx in Hxy.
  apply Z.leb_gt in Hxy. lia.
Qed.

Lemma sort_keeps_ties (t : string) (l : list AggregatedLogEntry) :
  (forall x, x ∈ l -> localeCompare (timestamp (entry x)) (timestamp (entry x)) <= 0) ->
  at_time t (JS.sort newest_first l) = at_time t l.
Proof.
  induction l as [|x l IH]; intros Hrefl; cbn [JS.sort]; [reflexivity|].
  rewrite insert_sorted_keeps_ties by (apply Hrefl; now left).
  unfold at_time in *. cbn [List.filter]. rewrite IH; [reflexivity|].
  intros y Hy. apply Hrefl. now right.
Qed.

Section FurtherRuns.

Context {W : Type}.
Variable perform : forall e : Effect, W -> Outcome (Answer e) * W.

(** ** The query of one app *)

Lemma run_forward (d : DOId) (req : DORequest) (w : W) :
  run perform (json ← await (StubFetch d req); mret (c_json (Forwarded json))) w =
  match perform (StubFetch d req) w with
  | (Fulfilled json, w1) => (Returned (c_json (Forwarded json)), w1, [StubFetch d req])
  | (Rejected, w1) => (Thrown, w1, [StubFetch d req])
  end.
Proof.
  cbn [run mbind Prog_bind bind await].
  destruct (perform (StubFetch d req) w) as [[json|] w1]; reflexivity.
Qed.

Lemma truthy_nonempty (s : option string) (a : string) : truthy s = Some a -> a <> "".
Proof.
  destruct s as [s|]; cbn; [|discriminate].
  destruct (String.eqb_spec s ""); [discriminate|]. congruence.
Qed.

(** X1. A query for logs that carries an app id, from the API key or else
    from the [X-App-ID] header, makes exactly one call: the request to the
    actor named after that app, with the query string of the caller
    unchanged.  The registry is not read, the answer of the actor is
    forwarded with status 200 whether it is ok or not, and a rejected request
    is thrown.  The id is never empty, and the id of the API key takes
    precedence over the header. *)
Theorem single_app_query_is_forwarded
    (env : Env) (ctxAppId headerAppId : option string)
    (search : JS.URLSearchParams) (a : string) (w : W) :
  truthy ctxAppId ∪ truthy headerAppId = Some a ->
  let own := StubFetch (getAppDO a) (GetLogs search) in
  let r := run perform (get_logs env ctxAppId headerAppId search) w in
  calls r = [own] /\
  completion r =
    match fst (perform own w) with
    | Fulfilled json => Returned (mkResponse 200 (Forwarded json))
    | Rejected => Thrown
    end /\
  final r = snd (perform own w) /\
  a <> "" /\
  (forall key, truthy ctxAppId = Some key -> a = key).
Proof.
  intros Ha own r. subst r. unfold get_logs. rewrite Ha.
  rewrite (run_forward (getAppDO a) (GetLogs search) w). fold own.
  split; [|split; [|split; [|split]]].
  - destruct (perform own w) as [[json|] w1]; reflexivity.
  - destruct (perform own w) as [[json|] w1]; reflexivity.
  - destruct (perform own w) as [[json|] w1]; reflexivity.
  - destruct (truthy ctxAppId) as [c|] eqn:Hc;
      destruct (truthy headerAppId) as [h|] eqn:Hh;
      inversion Ha; subst; eauto using truthy_nonempty.
  - intros key Hkey. rewrite Hkey in Ha.
    destruct (truthy headerAppId); inversion Ha; reflexivity.
Qed.

(** ** The aggregated query, whatever its limit *)

(** X2. Whatever the limit of an aggregated query (negative or unparsable
    included), the page is a prefix of the merged entries in sorted order,
    and every entry of the page was answered, in a list of entries of an ok
    result, by the request to a listed app whose id the entry carries. *)
Theorem aggregate_page_comes_from_listed_apps
    (env : Env) (ctxAppId headerAppId : option string)
    (search : JS.URLSearchParams) (ids : list string) (w : W) :
  truthy ctxAppId ∪ truthy headerAppId = None ->
  registry_lists perform env w = Some ids ->
  let outcomes :=
    fst (settle_all perform (perAppParams search ids) ids (snd (perform (KV ListApps) w))) in
  exists page rest : list AggregatedLogEntry,
    completion (run perform (get_logs env ctxAppId headerAppId search) w) =
      Returned (mkResponse 200 (OkLogs page)) /\
    JS.sort newest_first (merged_entries perform search ids w) = (page ++ rest)%list /\
    (forall x, x ∈ page ->
       app_id x ∈ ids /\
       exists n l, ids !! n = Some (app_id x) /\
                   outcomes !! n = Some (Fulfilled (Ok (DEntries l))) /\
                   entry x ∈ l).
Proof.
  intros Hadmin Hreg outcomes.
  destruct (get_logs_listed perform env ctxAppId headerAppId search ids w Hadmin Hreg)
    as [Hdone _].
  set (sorted := JS.sort newest_first (merged_entries perform search ids w)) in *.
  destruct (slice0_is_take sorted (globalLimit search)) as [k Hk].
  exists (take k sorted), (drop k sorted).
  split; [now rewrite Hdone, Hk|]. split; [now rewrite take_drop|].
  intros x Hx.
  assert (Hm : x ∈ merged_entries perform search ids w).
  { rewrite <- (sort_perm newest_first (merged_entries perform search ids w)).
    fold sorted. rewrite <- (take_drop k sorted), elem_of_app. now left. }
  destruct (merged_from_apps ids outcomes x Hm) as (n & l & Hi & Ho & He).
  split; [eapply list_elem_of_lookup_2, Hi|]. now exists n, l.
Qed.

(** X3. An aggregated query with a negative limit L asks every listed app
    for 10 entries and answers the sorted merge without its last
    min(|L|, total) entries. *)
Theorem negative_limit_drops_the_oldest
    (env : Env) (ctxAppId headerAppId : option string)
    (search : JS.URLSearchParams) (ids : list string) (L : Z) (w : W) :
  truthy ctxAppId ∪ truthy headerAppId = None ->
  registry_lists perform env w = Some ids ->
  ids <> [] ->
  globalLimit search = JS.Num L ->
  L < 0 ->
  perAppLimit search ids = JS.Num 10 /\
  exists page dropped : list AggregatedLogEntry,
    completion (run perform (get_logs env ctxAppId headerAppId search) w) =
      Returned (mkResponse 200 (OkLogs page)) /\
    JS.sort newest_first (merged_entries perform search ids w) = (page ++ dropped)%list /\
    length dropped =
      Nat.min (Z.to_nat (- L)) (length (merged_entries perform search ids w)).
Proof.
  intros Hadmin Hreg Hne HL Hneg. split.
  - unfold perAppLimit. rewrite HL. cbn [JS.Math_ceil_div JS.Math_max]. f_equal.
    assert (Hn : 0 < Z.of_nat (length ids)) by (destruct ids; [congruence|cbn [length]; lia]).
    pose proof (ceil_div_spec L _ Hn). nia.
  - destruct (get_logs_listed perform env ctxAppId headerAppId search ids w Hadmin Hreg)
      as [Hdone _].
    pose proof (Permutation_length (sort_perm newest_first
                  (merged_entries perform search ids w))) as Hlen.
    set (sorted := JS.sort newest_first (merged_entries perform search ids w)) in *.
    set (k := Z.to_nat (Z.max (Z.of_nat (length sorted) + L) 0)).
    exists (take k sorted), (drop k sorted).
    split; [|split].
    + rewrite Hdone, HL. unfold JS.slice0.
      destruct (Z.ltb_spec L 0); [reflexivity|lia].
    + now rewrite take_drop.
    + rewrite length_drop, <- Hlen. subst k. lia.
Qed.

(** X4. When comparing a timestamp with itself does not give a positive
    number, the sort of an aggregated query is stable: the entries of one
    timestamp, in the page and after it, are in the order of the merge (the
    order of the listing of the apps, then the order each actor
    answered). *)
Theorem equal_timestamps_keep_listing_order
    (env : Env) (ctxAppId headerAppId : option string)
    (search : JS.URLSearchParams) (ids : list string) (w : W) :
  truthy ctxAppId ∪ truthy headerAppId = None ->
  registry_lists perform env w = Some ids ->
  (forall x, x ∈ merged_entries perform search ids w ->
     localeCompare (timestamp (entry x)) (timestamp (entry x)) <= 0) ->
  exists page rest : list AggregatedLogEntry,
    completion (run perform (get_logs env ctxAppId headerAppId search) w) =
      Returned (mkResponse 200 (OkLogs page)) /\
    forall t,
      (at_time t page ++ at_time t rest)%list =
      at_time t (merged_entries perform search ids w).
Proof.
  intros Hadmin Hreg Hrefl.
  destruct (get_logs_listed perform env ctxAppId headerAppId search ids w Hadmin Hreg)
    as [Hdone _].
  set (sorted := JS.sort newest_first (merged_entries perform search ids w)) in *.
  destruct (slice0_is_take sorted (globalLimit search)) as [k Hk].
  exists (take k sorted), (drop k sorted).
  split; [now rewrite Hdone, Hk|].
  intros t. unfold at_time at 1 2. rewrite <- List.filter_app, take_drop.
  apply sort_keeps_ties, Hrefl.
Qed.

(** ** The RPC entrypoint *)

Lemma getAll_set_if (k name : string) (v : option string) (p : JS.URLSearchParams) :
  JS.getAll k (set_if v name p) =
  if String.eqb k name
  then match v with Some s => [s] | None => JS.getAll k p end
  else JS.getAll k p.
Proof.
  destruct v as [s|]; cbn [set_if].
  - destruct (String.eqb_spec k name) as [->|Hne].
    + apply getAll_set_eq.
    + now apply getAll_set_ne.
  - destruct (String.eqb k name); reflexivity.
Qed.

Lemma run_rpc_query (appId : string) (filters : option QueryFilters) (w : W) :
  run perform (rpc_query appId filters) w =
  match perform (StubFetch (getAppDO appId) (GetLogs (query_params filters))) w with
  | (Fulfilled result, w1) =>
      (Returned (result_data result), w1,
       [StubFetch (getAppDO appId) (GetLogs (query_params filters))])
  | (Rejected, w1) =>
      (Thrown, w1, [StubFetch (getAppDO appId) (GetLogs (query_params filters))])
  end.
Proof.
  cbn [rpc_query run mbind Prog_bind bind await].
  destruct (perform (StubFetch (getAppDO appId) (GetLogs (query_params filters))) w)
    as [[result|] w1]; reflexivity.
Qed.

(** X6. [LogsRPC.query] makes one call, to the actor named after the app,
    whose parameters hold each of [level], [since], [until], [request_id],
    [limit] and [offset] at most once, exactly when the filter is truthy, and
    no other name.  A limit of 0 or NaN is not forwarded; a safe integer
    other than 0 is forwarded and reads back as the number given; any other
    number is forwarded as [String] prints it. *)
Theorem query_forwards_the_truthy_filters
    (appId : string) (filters : option QueryFilters) (w : W) :
  let params := query_params filters in
  let sent (v : option string) := match v with Some s => [s] | None => [] end in
  calls (run perform (rpc_query appId filters) w) =
    [StubFetch (getAppDO appId) (GetLogs params)] /\
  JS.getAll "level" params = sent (truthy (filters ≫= q_level)) /\
  JS.getAll "since" params = sent (truthy (filters ≫= q_since)) /\
  JS.getAll "until" params = sent (truthy (filters ≫= q_until)) /\
  JS.getAll "request_id" params = sent (truthy (filters ≫= q_request_id)) /\
  JS.getAll "limit" params = sent (number_text <$> truthy_number (filters ≫= q_limit)) /\
  JS.getAll "offset" params = sent (number_text <$> truthy_number (filters ≫= q_offset)) /\
  (forall k, k ∉ filter_names -> JS.getAll k params = []) /\
  (forall n, filters ≫= q_limit = Some (Integer n) ->
     JS.parseInt <$> JS.get "limit" params =
     if integer n =? 0 then None else Some (JS.Num (integer n))) /\
  (filters ≫= q_limit = Some NotANumber -> JS.has "limit" params = false) /\
  (forall text, filters ≫= q_limit = Some (OtherNumber text) ->
     JS.get "limit" params = Some text).
Proof.
  intros params sent. subst params.
  split; [rewrite run_rpc_query;
          destruct (perform _ w) as [[result|] w1]; reflexivity|].
  assert (Hlimit : JS.getAll "limit" (query_params filters) =
                   sent (number_text <$> truthy_number (filters ≫= q_limit))).
  { unfold query_params. cbv zeta. rewrite !getAll_set_if.
    destruct (truthy_number (filters ≫= q_limit)); reflexivity. }
  repeat split.
  - unfold query_params. cbv zeta. rewrite !getAll_set_if.
    destruct (truthy (filters ≫= q_level)); reflexivity.
  - unfold query_params. cbv zeta. rewrite !getAll_set_if.
    destruct (truthy (filters ≫= q_since)); reflexivity.
  - unfold query_params. cbv zeta. rewrite !getAll_set_if.
    destruct (truthy (filters ≫= q_until)); reflexivity.
  - unfold query_params. cbv zeta. rewrite !getAll_set_if.
    destruct (truthy (filters ≫= q_request_id)); reflexivity.
  - exact Hlimit.
  - unfold query_params. cbv zeta. rewrite !getAll_set_if.
    destruct (truthy_number (filters ≫= q_offset)); reflexivity.
  - intros k Hk. unfold query_params. cbv zeta. rewrite !getAll_set_if.
    unfold filter_names in Hk. rewrite !not_elem_of_cons in Hk.
    destruct Hk as (H1 & H2 & H3 & H4 & H5 & H6 & _).
    repeat match goal with
           | |- context [String.eqb k ?n] =>
               destruct (String.eqb_spec k n); [congruence|]
           end.
    reflexivity.
  - intros n Hn. rewrite get_head, Hlimit, Hn. cbn [truthy_number].
    destruct (integer n =? 0); [reflexivity|].
    change (Some (JS.parseInt (JS.String_ (JS.Num (integer n)))) =
            Some (JS.Num (integer n))).
    now rewrite parseInt_String.
  - intros Hz. rewrite has_getAll, Hlimit, Hz. reflexivity.
  - intros text Ht. rewrite get_head, Hlimit, Ht. reflexivity.
Qed.

(** X7. [LogsRPC.log], [logBatch] and [query] answer [undefined], without
    throwing, exactly when the actor answered a result that is not ok; a
    refused write is followed by no call on the statistics. *)
Theorem refused_rpc_calls_answer_undefined
    (env : Env) (appId : string) (input : LogInput) (entries : list LogInput)
    (filters : option QueryFilters) (w : W) :
  let refused (e : DORequest) :=
    exists code msg,
      fst (perform (StubFetch (getAppDO appId) e) w) = Fulfilled (Err code msg) in
  let one (e : DORequest) := [StubFetch (getAppDO appId) e] in
  (completion (run perform (rpc_log env appId input) w) = Returned None <->
   refused (PostLog input)) /\
  (completion (run perform (rpc_logBatch env appId entries) w) = Returned None <->
   refused (PostLogs entries)) /\
  (completion (run perform (rpc_query appId filters) w) = Returned None <->
   refused (GetLogs (query_params filters))) /\
  (refused (PostLog input) ->
   calls (run perform (rpc_log env appId input) w) = one (PostLog input)) /\
  (refused (PostLogs entries) ->
   calls (run perform (rpc_logBatch env appId entries) w) = one (PostLogs entries)).
Proof.
  intros refused one. subst refused one. cbv beta.
  rewrite run_rpc_log, run_rpc_logBatch, run_rpc_query. unfold completion, calls.
  split; [|split; [|split; [|split]]].
  - destruct (perform (StubFetch (getAppDO appId) (PostLog input)) w)
      as [[[d|c m]|] w1]; cbn [fst snd ok andb result_data].
    + destruct (LOGS_KV env); [destruct (perform _ w1) as [[u|] w2]|];
        cbn [fst]; (split; [intros Hc; discriminate Hc|]);
        intros (c & m & Hc); discriminate Hc.
    + split; [intros _; now exists c, m|reflexivity].
    + split; [intros Hc; discriminate Hc|intros (c & m & Hc); discriminate Hc].
  - destruct (perform (StubFetch (getAppDO appId) (PostLogs entries)) w)
      as [[[d|c m]|] w1]; cbn [fst snd ok andb result_data].
    + destruct (LOGS_KV env); [destruct (perform _ w1) as [[u|] w2]|];
        cbn [fst]; (split; [intros Hc; discriminate Hc|]);
        intros (c & m & Hc); discriminate Hc.
    + split; [intros _; now exists c, m|reflexivity].
    + split; [intros Hc; discriminate Hc|intros (c & m & Hc); discriminate Hc].
  - destruct (perform (StubFetch (getAppDO appId) (GetLogs (query_params filters))) w)
      as [[[d|c m]|] w1]; cbn [fst snd result_data].
    + split; [intros Hc; discriminate Hc|intros (c & m & Hc); discriminate Hc].
    + split; [intros _; now exists c, m|reflexivity].
    + split; [intros Hc; discriminate Hc|intros (c & m & Hc); discriminate Hc].
  - intros (c & m & Hc).
    destruct (perform (StubFetch (getAppDO appId) (PostLog input)) w) as [o w1].
    cbn [fst] in Hc. subst o. reflexivity.
  - intros (c & m & Hc).
    destruct (perform (StubFetch (getAppDO appId) (PostLogs entries)) w) as [o w1].
    cbn [fst] in Hc. subst o. reflexivity.
Qed.

(** X8. Each of [info], [warn], [error] and [debug] first sends one write
    of an entry with the message and the context given and a level that the
    [CHECK] constraint of the table [logs] admits, and makes no other call
    than the increment of the statistics of that level.  The levels the
    constraint admits are those the model of the actor validates. *)
Theorem convenience_methods_use_schema_levels
    (env : Env) (appId message : string) (context : option string) (w : W) :
  Forall
    (fun m : Env -> string -> string -> option string -> Prog (option DOData) =>
       exists l,
         level_check l = true /\
         let write := StubFetch (getAppDO appId) (PostLog (mkLogInput l message context None)) in
         head (calls (run perform (m env appId message context) w)) = Some write /\
         forall e, e ∈ calls (run perform (m env appId message context) w) ->
                   e = write \/ e = KV (IncrementStats appId l))
    [rpc_info; rpc_warn; rpc_error; rpc_debug] /\
  (forall l, level_check l = valid_level l).
Proof.
  split.
  - assert (Hlog : forall l,
              let write :=
                StubFetch (getAppDO appId) (PostLog (mkLogInput l message context None)) in
              let r := run perform (rpc_log env appId (mkLogInput l message context None)) w in
              head (calls r) = Some write /\
              forall e, e ∈ calls r -> e = write \/ e = KV (IncrementStats appId l)).
    { intros l. cbv zeta. rewrite run_rpc_log. cbn [in_level].
      destruct (perform (StubFetch _ _) w) as [[result|] w1];
        [destruct (ok result && LOGS_KV env);
         [destruct (perform (KV _) w1) as [[u|] w2]|]|];
        (split; [reflexivity|]); unfold calls; cbn [snd]; intros e He;
        repeat (apply elem_of_cons in He as [He|He]; [auto|]); inversion He. }
    apply Forall_cons_2; [exists "INFO"; split; [reflexivity|apply Hlog]|].
    apply Forall_cons_2; [exists "WARN"; split; [reflexivity|apply Hlog]|].
    apply Forall_cons_2; [exists "ERROR"; split; [reflexivity|apply Hlog]|].
    apply Forall_cons_2; [exists "DEBUG"; split; [reflexivity|apply Hlog]|].
    apply Forall_nil_2.
  - intros l. unfold level_check, valid_level, schema_levels. cbn [existsb].
    now rewrite orb_false_r, !orb_assoc.
Qed.

(** ** The registry routes *)

Lemma run_get_apps (env : Env) (w : W) :
  run perform (get_apps env) w =
  if LOGS_KV env then
    match perform (KV ListApps) w with
    | (Fulfilled (Ok ids), w1) => (Returned (mkReply 200 (Ok ids)), w1, [KV ListApps])
    | (Fulfilled (Err code msg), w1) =>
        (Returned (mkReply 500 (Err code msg)), w1, [KV ListApps])
    | (Rejected, w1) => (Thrown, w1, [KV ListApps])
    end
  else (Returned (mkReply 500 (Err INTERNAL_ERROR "KV namespace not configured")), w, []).
Proof.
  unfold get_apps. destruct (LOGS_KV env); cbn [negb]; [|reflexivity].
  cbn [run mbind Prog_bind bind await].
  change (perform (KV ListApps) w)
    with (perform (KV ListApps) w : Outcome (Result (list string)) * W).
  destruct (perform (KV ListApps) w) as [[[ids|c m]|] w1]; reflexivity.
Qed.

Lemma failed_without_listing (env : Env) (ctxAppId headerAppId : option string)
    (search : JS.URLSearchParams) (w : W) :
  truthy ctxAppId ∪ truthy headerAppId = None ->
  registry_lists perform env w = None ->
  failed (completion (run perform (get_logs env ctxAppId headerAppId search) w)) = true.
Proof.
  intros Hadmin. unfold registry_lists, get_logs. rewrite Hadmin.
  destruct (LOGS_KV env); [|reflexivity]. cbn [negb].
  rewrite run_mbind. rewrite_at_call (run_await perform (KV ListApps) w).
  destruct (perform (KV ListApps) w) as [[[l|c m]|] w1]; cbn [fst];
    [discriminate|reflexivity|reflexivity].
Qed.

(** X9. [GET /apps] and the aggregated [GET /logs] read the registry
    alike: the listing answers 200 with the ids exactly when the registry can
    be read, the aggregated query then queries those ids in that order and
    succeeds, and it fails whenever the listing does not answer 200.  The
    listing makes at most the one call and answers 200 or 500. *)
Theorem listing_and_aggregate_read_the_registry_alike
    (env : Env) (ctxAppId headerAppId : option string)
    (search : JS.URLSearchParams) (w : W) :
  truthy ctxAppId ∪ truthy headerAppId = None ->
  let listing := run perform (get_apps env) w in
  let query := run perform (get_logs env ctxAppId headerAppId search) w in
  (forall ids, completion listing = Returned (mkReply 200 (Ok ids)) <->
               registry_lists perform env w = Some ids) /\
  (forall ids, completion listing = Returned (mkReply 200 (Ok ids)) ->
               calls query = KV ListApps :: map (app_request (perAppParams search ids)) ids /\
               failed (completion query) = false) /\
  ((forall ids, completion listing <> Returned (mkReply 200 (Ok ids))) ->
   failed (completion query) = true) /\
  calls listing = (if LOGS_KV env then [KV ListApps] else []) /\
  (forall reply, completion listing = Returned reply ->
                 reply_status reply = 200 \/ reply_status reply = 500).
Proof.
  intros Hadmin listing query.
  assert (Hiff : forall ids, completion listing = Returned (mkReply 200 (Ok ids)) <->
                             registry_lists perform env w = Some ids).
  { intros ids. subst listing. rewrite run_get_apps. unfold registry_lists, completion.
    destruct (LOGS_KV env); [|cbn; split; intros Hc; discriminate Hc].
    destruct (perform (KV ListApps) w) as [[[l|c m]|] w1]; cbn [fst];
      split; intros Hc; try discriminate Hc; congruence. }
  split; [exact Hiff|]. split; [|split; [|split]].
  - intros ids Hids. apply Hiff in Hids.
    destruct (get_logs_listed perform env ctxAppId headerAppId search ids w Hadmin Hids)
      as [Hdone Hcalls].
    split; [exact Hcalls|]. subst query. now rewrite Hdone.
  - intros Hnone. apply failed_without_listing; [exact Hadmin|].
    destruct (registry_lists perform env w) as [ids|] eqn:Hreg; [|reflexivity].
    exfalso. apply (Hnone ids), Hiff. reflexivity.
  - subst listing. rewrite run_get_apps. unfold calls.
    destruct (LOGS_KV env); [|reflexivity].
    destruct (perform (KV ListApps) w) as [[[l|c m]|] w1]; reflexivity.
  - intros reply. subst listing. rewrite run_get_apps. unfold completion.
    destruct (LOGS_KV env); [|intros [= <-]; now right].
    destruct (perform (KV ListApps) w) as [[[l|c m]|] w1]; cbn [fst];
      intros Hc; inversion Hc; cbn; auto.
Qed.

(** ** The aggregated query: what is asked and what is answered *)

Lemma merged_is_tagged (search : JS.URLSearchParams) (ids : list string) (w : W) :
  merged_entries perform search ids w =
  tagged_results ids (per_app_outcomes perform search ids w).
Proof.
  unfold merged_entries, tagged_results, per_app_outcomes, contribution_of, contribution, tag.
  reflexivity.
Qed.






(** C4. An aggregated query fails exactly when the registry cannot be read
    (the KV namespace is not bound, or listing the apps throws or returns an
    error).  When the registry lists the apps the query succeeds, and its
    page is cut from the sorted concatenation of the result lists of the
    apps that answered an ok result with a list of entries, each entry
    tagged with the id of its app: such an app contributes all its entries,
    and an app whose request throws, answers a result that is not ok, or
    answers data that is not a list contributes none. *)
Theorem aggregate_fails_only_with_registry
    (env : Env) (ctxAppId headerAppId : option string)
    (search : JS.URLSearchParams) (w : W) :
  truthy ctxAppId ∪ truthy headerAppId = None ->
  let r := run perform (get_logs env ctxAppId headerAppId search) w in
  (failed (completion r) = true <-> registry_lists perform env w = None) /\
  (forall ids, registry_lists perform env w = Some ids ->
     completion r =
       Returned
         (mkResponse 200
            (OkLogs
               (JS.slice0
                  (JS.sort newest_first
                     (tagged_results ids (per_app_outcomes perform search ids w)))
                  (globalLimit search))))) /\
  (forall i l,
     contribution_of i (Fulfilled (Ok (DEntries l))) = map (fun e => mkAggregated e i) l) /\
  (forall i, contribution_of i Rejected = []) /\
  (forall i code msg, contribution_of i (Fulfilled (Err code msg)) = []) /\
  (forall i d, (forall l, d <> DEntries l) -> contribution_of i (Fulfilled (Ok d)) = []).
Proof.
  intros Hadmin r. split; [|split; [|split; [|split; [|split]]]].
  - destruct (registry_lists perform env w) as [ids|] eqn:Hreg.
    + destruct (get_logs_listed perform env ctxAppId headerAppId search ids w Hadmin Hreg)
        as [Hdone _].
      subst r. rewrite Hdone. cbn. split; discriminate.
    + split; [reflexivity|intros _]. subst r. now apply failed_without_listing.
  - intros ids Hreg.
    destruct (get_logs_listed perform env ctxAppId headerAppId search ids w Hadmin Hreg)
      as [Hdone _].
    subst r. now rewrite Hdone, merged_is_tagged.
  - reflexivity.
  - reflexivity.
  - reflexivity.
  - intros i [e|l|c|d|t] Hd; try reflexivity. now destruct (Hd l).
Qed.

(** ** Which store a route reaches *)

Lemma forward_calls_own (d : DOId) (req : DORequest) (w : W) :
  forallb (to_actor d)
    (calls (run perform (json ← await (StubFetch d req); mret (c_json (Forwarded json))) w)) =
  true.
Proof.
  rewrite run_forward. destruct (perform (StubFetch d req) w) as [[json|] w1];
    cbn; now rewrite bool_decide_eq_true_2.
Qed.

Lemma post_logs_calls_own (appId : string) (b : LogsBody) (w : W) :
  forallb (to_actor (getAppDO appId)) (calls (run perform (post_logs appId b) w)) = true.
Proof.
  rewrite run_post_logs.
  destruct (perform (StubFetch (getAppDO appId) (write_request b)) w) as [[result|] w1];
    [destruct (ok result);
     [destruct (perform (StubFetch (getAppDO appId) (stats_request b)) w1) as [[u|] w2]|]|];
    cbn; now rewrite ?bool_decide_eq_true_2.
Qed.

Lemma get_stats_calls_own (appId : string) (auth daysQuery : option string) (w : W) :
  forallb (to_actor (getAppDO appId))
    (calls (run perform (get_stats appId auth daysQuery) w)) = true.
Proof.
  unfold get_stats. destruct (app_id_mismatch auth appId); [reflexivity|].
  apply forward_calls_own.
Qed.

Lemma post_prune_calls_own (appId : string) (auth before : option string) (w : W) :
  forallb (to_actor (getAppDO appId))
    (calls (run perform (post_prune appId auth before) w)) = true.
Proof.
  unfold post_prune. destruct (strict_neq appId auth); [reflexivity|].
  destruct (truthy before); [apply forward_calls_own|reflexivity].
Qed.

Lemma post_health_urls_calls_own (appId : string) (auth : option string)
    (urls : option (list string)) (w : W) :
  forallb (to_actor (getAppDO appId))
    (calls (run perform (post_health_urls appId auth urls) w)) = true.
Proof.
  unfold post_health_urls. destruct (app_id_mismatch auth appId); [reflexivity|].
  destruct urls; [apply forward_calls_own|reflexivity].
Qed.

Lemma run_get_app (env : Env) (appId : string) (auth : option string) (w : W) :
  run perform (get_app env appId auth) w =
  if app_id_mismatch auth appId then (Returned mismatch_response, w, [])
  else if LOGS_KV env then
    match perform (KV (GetApp appId)) w with
    | (Fulfilled (Ok (Some data)), w1) =>
        (Returned (c_json (OkApp (safeData data))), w1, [KV (GetApp appId)])
    | (Fulfilled (Ok None), w1) =>
        (Returned
           (c_json_status (Failed NOT_FOUND ("App '" +:+ appId +:+ "' not found")) 404),
         w1, [KV (GetApp appId)])
    | (Fulfilled (Err code msg), w1) =>
        (Returned (c_json_status (Failed code msg) 500), w1, [KV (GetApp appId)])
    | (Rejected, w1) => (Thrown, w1, [KV (GetApp appId)])
    end
  else (Returned kv_missing_response, w, []).
Proof.
  unfold get_app. destruct (app_id_mismatch auth appId); [reflexivity|].
  destruct (LOGS_KV env); cbn [negb]; [|reflexivity].
  cbn [run mbind Prog_bind bind await].
  change (perform (KV (GetApp appId)) w)
    with (perform (KV (GetApp appId)) w : Outcome (Result (option AppObject)) * W).
  destruct (perform (KV (GetApp appId)) w) as [[[[data|]|c m]|] w1]; reflexivity.
Qed.

Lemma run_delete_app (env : Env) (appId : string) (auth : option string) (w : W) :
  run perform (delete_app env appId auth) w =
  if app_id_mismatch auth appId then (Returned mismatch_response, w, [])
  else if LOGS_KV env then
    match perform (KV (DeleteApp appId)) w with
    | (Fulfilled (Ok data), w1) =>
        (Returned (c_json (OkDeleted data)), w1, [KV (DeleteApp appId)])
    | (Fulfilled (Err code msg), w1) =>
        (Returned (c_json_status (Failed code msg) 500), w1, [KV (DeleteApp appId)])
    | (Rejected, w1) => (Thrown, w1, [KV (DeleteApp appId)])
    end
  else (Returned kv_missing_response, w, []).
Proof.
  unfold delete_app. destruct (app_id_mismatch auth appId); [reflexivity|].
  destruct (LOGS_KV env); cbn [negb]; [|reflexivity].
  cbn [run mbind Prog_bind bind await].
  change (perform (KV (DeleteApp appId)) w)
    with (perform (KV (DeleteApp appId)) w : Outcome (Result string) * W).
  destruct (perform (KV (DeleteApp appId)) w) as [[[data|c m]|] w1]; reflexivity.
Qed.

Lemma get_app_calls_registry (env : Env) (appId : string) (auth : option string) (w : W) :
  forallb to_registry (calls (run perform (get_app env appId auth) w)) = true.
Proof.
  rewrite run_get_app. destruct (app_id_mismatch auth appId); [reflexivity|].
  destruct (LOGS_KV env); [|reflexivity].
  destruct (perform (KV (GetApp appId)) w) as [[[[data|]|c m]|] w1]; reflexivity.
Qed.

Lemma delete_app_calls_registry (env : Env) (appId : string) (auth : option string)
    (w : W) :
  forallb to_registry (calls (run perform (delete_app env appId auth) w)) = true.
Proof.
  rewrite run_delete_app. destruct (app_id_mismatch auth appId); [reflexivity|].
  destruct (LOGS_KV env); [|reflexivity].
  destruct (perform (KV (DeleteApp appId)) w) as [[[data|c m]|] w1]; reflexivity.
Qed.

Lemma get_apps_calls_registry (env : Env) (w : W) :
  forallb to_registry (calls (run perform (get_apps env) w)) = true.
Proof.
  rewrite run_get_apps. destruct (LOGS_KV env); [|reflexivity].
  destruct (perform (KV ListApps) w) as [[[l|c m]|] w1]; reflexivity.
Qed.

(** X10. Each route reaches one store.  [POST /logs], [GET /stats],
    prune and health-urls call only the actor named after their app, and
    never the KV namespace; the details, the deletion and the listing of apps
    call only the KV namespace, and no actor.  A write makes at most two
    calls. *)
Theorem routes_reach_one_store
    (env : Env) (appId : string) (auth daysQuery before : option string)
    (urls : option (list string)) (b : LogsBody) (w : W) :
  let own (r : Completion Response * W * list Effect) :=
    forallb (to_actor (getAppDO appId)) (calls r) in
  own (run perform (post_logs appId b) w) = true /\
  own (run perform (get_stats appId auth daysQuery) w) = true /\
  own (run perform (post_prune appId auth before) w) = true /\
  own (run perform (post_health_urls appId auth urls) w) = true /\
  forallb to_registry (calls (run perform (get_app env appId auth) w)) = true /\
  forallb to_registry (calls (run perform (delete_app env appId auth) w)) = true /\
  forallb to_registry (calls (run perform (get_apps env) w)) = true /\
  (length (calls (run perform (post_logs appId b) w)) <= 2)%nat.
Proof.
  intros own. subst own. cbv beta.
  split; [apply post_logs_calls_own|]. split; [apply get_stats_calls_own|].
  split; [apply post_prune_calls_own|]. split; [apply post_health_urls_calls_own|].
  split; [apply get_app_calls_registry|]. split; [apply delete_app_calls_registry|].
  split; [apply get_apps_calls_registry|].
  rewrite run_post_logs.
  destruct (perform (StubFetch (getAppDO appId) (write_request b)) w) as [[result|] w1];
    [destruct (ok result);
     [destruct (perform (StubFetch (getAppDO appId) (stats_request b)) w1) as [[u|] w2]|]|];
    cbn; lia.
Qed.

(** ** When a request is refused *)



End FurtherRuns.

(** ** The gateway against the actors *)

(** Calls on the KV namespace leave the actors and their clocks alone. *)
Lemma world_frame_registry {A} (p : Prog A) (w : World) :
  forallb to_registry (calls (run perform_world p w)) = true ->
  actors (final (run perform_world p w)) = actors w /\
  served (final (run perform_world p w)) = served w.
Proof.
  revert w. induction p as [a| |e k IH]; intros w; [split; reflexivity..|].
  cbn [run]. destruct e as [d req|c].
  - destruct (perform_world (StubFetch d req) w) as [o w1].
    destruct (run perform_world (k o) w1) as [[c' w2] tr]. cbn. discriminate.
  - cbn [perform_world]. destruct (kv_perform c (kv_state w)) as [o k'].
    specialize (IH o (mkWorld (actors w) (served w) k')).
    destruct (run perform_world (k o) (mkWorld (actors w) (served w) k')) as [[c' w2] tr].
    exact IH.
Qed.

(** Calls to the actor [d] and on the KV namespace leave the other actors
    alone. *)
Lemma world_frame_others {A} (d : DOId) (p : Prog A) (w : World) :
  forallb (fun e => to_actor d e || to_registry e) (calls (run perform_world p w)) = true ->
  forall d', d' <> d ->
    actor_of (actors (final (run perform_world p w))) d' = actor_of (actors w) d'.
Proof.
  revert w. induction p as [a| |e k IH]; intros w; [reflexivity..|].
  cbn [run]. destruct e as [d0 req|c].
  - cbn [perform_world].
    destruct (actor_fetch (clock (served w)) req (actor_of (actors w) d0)) as [json a'].
    specialize (IH (Fulfilled json)
                  (mkWorld (<[d0 := a']> (actors w)) (S (served w)) (kv_state w))).
    destruct (run perform_world (k (Fulfilled json))
                (mkWorld (<[d0 := a']> (actors w)) (S (served w)) (kv_state w)))
      as [[c' w2] tr].
    unfold calls, final in *. cbn [fst snd forallb to_actor to_registry actors] in *.
    rewrite orb_false_r. intros Hall d' Hd'. apply andb_true_iff in Hall as [Hd0 Hall].
    apply bool_decide_eq_true_1 in Hd0. subst d0.
    rewrite (IH Hall d' Hd'), actor_of_insert.
    destruct (decide (d = d')); [congruence|reflexivity].
  - cbn [perform_world]. destruct (kv_perform c (kv_state w)) as [o k'].
    specialize (IH o (mkWorld (actors w) (served w) k')).
    destruct (run perform_world (k o) (mkWorld (actors w) (served w) k')) as [[c' w2] tr].
    exact IH.
Qed.

(** Calls to actors leave the KV namespace alone. *)
Lemma world_frame_kv {A} (p : Prog A) (w : World) :
  forallb (fun e => negb (to_registry e)) (calls (run perform_world p w)) = true ->
  kv_state (final (run perform_world p w)) = kv_state w.
Proof.
  revert w. induction p as [a| |e k IH]; intros w; [reflexivity..|].
  cbn [run]. destruct e as [d0 req|c].
  - cbn [perform_world].
    destruct (actor_fetch (clock (served w)) req (actor_of (actors w) d0)) as [json a'].
    specialize (IH (Fulfilled json)
                  (mkWorld (<[d0 := a']> (actors w)) (S (served w)) (kv_state w))).
    destruct (run perform_world (k (Fulfilled json))
                (mkWorld (<[d0 := a']> (actors w)) (S (served w)) (kv_state w)))
      as [[c' w2] tr].
    exact IH.
  - destruct (perform_world (KV c) w) as [o w1].
    destruct (run perform_world (k o) w1) as [[c' w2] tr]. cbn. discriminate.
Qed.

Lemma forallb_weaken {A} (f g : A -> bool) (l : list A) :
  (forall x, f x = true -> g x = true) -> forallb f l = true -> forallb g l = true.
Proof.
  intros Hfg. rewrite !forallb_forall. intros Hf x Hx. apply Hfg, Hf, Hx.
Qed.

Lemma to_actor_not_registry (d : DOId) (e : Effect) :
  to_actor d e = true -> negb (to_registry e) = true.
Proof. destruct e; [reflexivity|discriminate]. Qed.

Lemma to_actor_or_registry (d : DOId) (e : Effect) :
  to_actor d e = true -> to_actor d e || to_registry e = true.
Proof. now intros ->. Qed.

(** X12. Deleting an app calls only the KV namespace: the datasets of all
    actors and their clocks are as before, every later request to an actor is
    answered as it would have been, and the logs of the deleted app are still
    returned to a query that names it. *)
Theorem deleting_an_app_keeps_its_logs
    (env : Env) (appId : string) (auth : option string) (w : World) :
  let r := run perform_world (delete_app env appId auth) w in
  forallb to_registry (calls r) = true /\
  actors (final r) = actors w /\
  served (final r) = served w /\
  (forall d req,
     fst (perform_world (StubFetch d req) (final r)) =
     fst (perform_world (StubFetch d req) w)) /\
  (forall env' ctxAppId headerAppId search a,
     truthy ctxAppId ∪ truthy headerAppId = Some a ->
     completion (run perform_world (get_logs env' ctxAppId headerAppId search) (final r)) =
     completion (run perform_world (get_logs env' ctxAppId headerAppId search) w)).
Proof.
  intros r.
  pose proof (delete_app_calls_registry perform_world env appId auth w) as Hkv.
  destruct (world_frame_registry _ w Hkv) as [Hactors Hserved].
  fold r in Hkv, Hactors, Hserved.
  assert (Hsame : forall d req,
            fst (perform_world (StubFetch d req) (final r)) =
            fst (perform_world (StubFetch d req) w)).
  { intros d req. cbn [perform_world]. rewrite Hactors, Hserved.
    destruct (actor_fetch (clock (served w)) req (actor_of (actors w) d)); reflexivity. }
  split; [exact Hkv|]. split; [exact Hactors|]. split; [exact Hserved|].
  split; [exact Hsame|].
  intros env' ctxAppId headerAppId search a Ha. unfold get_logs. rewrite Ha.
  rewrite !run_forward. unfold completion.
  pose proof (Hsame (getAppDO a) (GetLogs search)) as Hs.
  destruct (perform_world (StubFetch (getAppDO a) (GetLogs search)) (final r)) as [o1 w1].
  destruct (perform_world (StubFetch (getAppDO a) (GetLogs search)) w) as [o2 w2].
  cbn [fst] in Hs. subst o2. destruct o1; reflexivity.
Qed.

Lemma rpc_log_calls (env : Env) (appId : string) (input : LogInput) (w : World) :
  forallb (fun e => to_actor (getAppDO appId) e || to_registry e)
    (calls (run perform_world (rpc_log env appId input) w)) = true.
Proof.
  rewrite run_rpc_log.
  destruct (perform_world (StubFetch (getAppDO appId) (PostLog input)) w)
    as [[result|] w1];
    [destruct (ok result && LOGS_KV env);
     [destruct (perform_world (KV (IncrementStats appId (in_level input))) w1)
        as [[u|] w2]|]|];
    cbn; now rewrite ?bool_decide_eq_true_2.
Qed.

Lemma rpc_logBatch_calls (env : Env) (appId : string) (entries : list LogInput)
    (w : World) :
  forallb (fun e => to_actor (getAppDO appId) e || to_registry e)
    (calls (run perform_world (rpc_logBatch env appId entries) w)) = true.
Proof.
  rewrite run_rpc_logBatch.
  destruct (perform_world (StubFetch (getAppDO appId) (PostLogs entries)) w)
    as [[result|] w1];
    [destruct (ok result && LOGS_KV env);
     [destruct (perform_world (KV (IncrementStatsBatch appId (batch_counts entries))) w1)
        as [[u|] w2]|]|];
    cbn; now rewrite ?bool_decide_eq_true_2.
Qed.

(** X13. A write through the gateway or through the RPC entrypoint, single
    or batch, leaves the dataset of every actor other than the one named
    after its app as it was; a write through the gateway also leaves the KV
    namespace as it was. *)
Theorem writes_stay_in_their_actor
    (env : Env) (appId : string) (b : LogsBody) (input : LogInput)
    (entries : list LogInput) (w : World) (d : DOId) :
  d <> getAppDO appId ->
  let http := run perform_world (post_logs appId b) w in
  let rpc := run perform_world (rpc_log env appId input) w in
  let rpc_batch := run perform_world (rpc_logBatch env appId entries) w in
  actor_of (actors (final http)) d = actor_of (actors w) d /\
  kv_state (final http) = kv_state w /\
  actor_of (actors (final rpc)) d = actor_of (actors w) d /\
  actor_of (actors (final rpc_batch)) d = actor_of (actors w) d.
Proof.
  intros Hd http rpc rpc_batch.
  pose proof (post_logs_calls_own perform_world appId b w) as Hown.
  split; [|split; [|split]].
  - apply (world_frame_others (getAppDO appId)); [|exact Hd].
    eapply forallb_weaken; [|exact Hown]. apply to_actor_or_registry.
  - apply world_frame_kv.
    eapply forallb_weaken; [|exact Hown]. apply to_actor_not_registry.
  - apply (world_frame_others (getAppDO appId)); [apply rpc_log_calls|exact Hd].
  - apply (world_frame_others (getAppDO appId)); [apply rpc_logBatch_calls|exact Hd].
Qed.

(** ** What a write leaves *)

(** The rows of the actor of an app after a request to it. *)
Lemma logs_after_stats (d : DOId) (b : StatsBody) (w : World) :
  logs (actor_of (actors (snd (perform_world (StubFetch d (PostStats b)) w))) d) =
  logs (actor_of (actors w) d).
Proof.
  cbn [perform_world actor_fetch]. unfold incrementStats. cbn [snd actors].
  rewrite actor_of_insert. destruct (decide (d = d)); [reflexivity|congruence].
Qed.

Lemma actors_after_kv (c : KVCall) (w : World) :
  actors (snd (perform_world (KV c) w)) = actors w.
Proof. cbn [perform_world]. destruct (kv_perform c (kv_state w)). reflexivity. Qed.

(** C5, amended. A write and the recording of its statistics are two calls,
    not one step.  The gateway and the RPC entrypoint first send the write
    (one entry or a batch) to the actor of the app.  When the actor accepts
    it (and, for the RPC entrypoint, the KV namespace is bound) exactly one
    increment call follows: a statistics request to the same actor with the
    level of the entry or the counts of the batch from the gateway, an
    increment of the KV statistics with the level or the pre-aggregated
    counts from [LogsRPC.log] and [LogsRPC.logBatch].  The caller is answered
    with the result of the write once that call has settled, whatever it
    answered, and by an exception when it was rejected.  No other call is
    made, and what the write persisted stays: against the actors, the rows
    of the actor when the handler ends are its rows after the write.  A
    write that is not accepted, and an RPC write without KV namespace, is
    followed by no increment. *)
Theorem statistics_follow_accepted_write {W : Type}
    (perform : forall e : Effect, W -> Outcome (Answer e) * W)
    (env : Env) (appId : string) (b : LogsBody) (input : LogInput)
    (entries : list LogInput) (w : W) (world : World) :
  let stub := getAppDO appId in
  let rows_after {A} (r : Completion A * World * list Effect) :=
    logs (actor_of (actors (final r)) stub) in
  let rows_written (write : DORequest) :=
    logs (actor_of (actors (snd (perform_world (StubFetch stub write) world))) stub) in
  run perform (post_logs appId b) w =
    write_then_record perform stub (write_request b)
      (StubFetch stub
         (PostStats
            match b with
            | Single entry => StatsLevel (in_level entry)
            | Batch logs => StatsCounts (countByLevel logs)
            end))
      ok (fun result => mkResponse 200 (Forwarded result)) w /\
  run perform (rpc_log env appId input) w =
    write_then_record perform stub (PostLog input)
      (KV (IncrementStats appId (in_level input)))
      (fun result => ok result && LOGS_KV env) result_data w /\
  run perform (rpc_logBatch env appId entries) w =
    write_then_record perform stub (PostLogs entries)
      (KV (IncrementStatsBatch appId (batch_counts entries)))
      (fun result => ok result && LOGS_KV env) result_data w /\
  rows_after (run perform_world (post_logs appId b) world) =
    rows_written (write_request b) /\
  rows_after (run perform_world (rpc_log env appId input) world) =
    rows_written (PostLog input) /\
  rows_after (run perform_world (rpc_logBatch env appId entries) world) =
    rows_written (PostLogs entries).
Proof.
  intros stub rows_after rows_written. subst rows_after rows_written. cbv beta.
  assert (Hs : stats_request b =
               PostStats match b with
                         | Single entry => StatsLevel (in_level entry)
                         | Batch logs => StatsCounts (countByLevel logs)
                         end) by (destruct b; reflexivity).
  rewrite <- Hs, !run_post_logs, !run_rpc_log, !run_rpc_logBatch.
  unfold write_then_record, final. fold stub.
  split; [|split; [|split; [|split; [|split]]]].
  - destruct (perform (StubFetch stub (write_request b)) w) as [[result|] w1];
      [|reflexivity].
    destruct (ok result); [|reflexivity].
    destruct (perform (StubFetch stub (stats_request b)) w1) as [[ans|] w2]; reflexivity.
  - destruct (perform (StubFetch stub (PostLog input)) w) as [[result|] w1];
      [|reflexivity].
    destruct (ok result && LOGS_KV env); [|reflexivity].
    destruct (perform (KV (IncrementStats appId (in_level input))) w1) as [[ans|] w2];
      reflexivity.
  - destruct (perform (StubFetch stub (PostLogs entries)) w) as [[result|] w1];
      [|reflexivity].
    destruct (ok result && LOGS_KV env); [|reflexivity].
    destruct (perform (KV (IncrementStatsBatch appId (batch_counts entries))) w1)
      as [[ans|] w2]; reflexivity.
  - destruct (perform_world (StubFetch stub (write_request b)) world) as [[result|] w1];
      cbn [fst snd]; [|reflexivity].
    destruct (ok result); [|reflexivity].
    rewrite Hs. pose proof (logs_after_stats stub
      match b with
      | Single entry => StatsLevel (in_level entry)
      | Batch logs => StatsCounts (countByLevel logs)
      end w1) as Hl.
    destruct (perform_world (StubFetch stub (PostStats _)) w1) as [[ans|] w2];
      exact Hl.
  - destruct (perform_world (StubFetch stub (PostLog input)) world) as [[result|] w1];
      cbn [fst snd]; [|reflexivity].
    destruct (ok result && LOGS_KV env); [|reflexivity].
    pose proof (actors_after_kv (IncrementStats appId (in_level input)) w1) as Hk.
    destruct (perform_world (KV (IncrementStats appId (in_level input))) w1)
      as [[ans|] w2]; cbn [fst snd] in *; now rewrite Hk.
  - destruct (perform_world (StubFetch stub (PostLogs entries)) world) as [[result|] w1];
      cbn [fst snd]; [|reflexivity].
    destruct (ok result && LOGS_KV env); [|reflexivity].
    pose proof (actors_after_kv (IncrementStatsBatch appId (batch_counts entries)) w1) as Hk.
    destruct (perform_world (KV (IncrementStatsBatch appId (batch_counts entries))) w1)
      as [[ans|] w2]; cbn [fst snd] in *; now rewrite Hk.
Qed.

(** ** The datasets of the tenants *)














(** ** Counting a batch in parts *)

Lemma occurrences_app (l : string) (e1 e2 : list LogInput) :
  occurrences l (e1 ++ e2) = (occurrences l e1 + occurrences l e2)%nat.
Proof. unfold occurrences. now rewrite List.filter_app, length_app. Qed.

Lemma weight_batch_counts (l : string) (entries : list LogInput) :
  weight l (batch_counts entries) = occurrences l entries.
Proof.
  destruct (batch_fold_spec entries [] (NoDup_nil_2 : NoDup (levels []))) as (_ & Hw & _).
  unfold batch_counts. now rewrite Hw.
Qed.

(** X14. The counts of a batch add up: the count a level gets from a batch
    in two parts is the sum of the counts of the parts, it does not depend on
    the order of the entries, a batch of one entry gives one count of 1, and
    an empty batch gives no count. *)
Theorem batch_counts_add_up (e1 e2 : list LogInput) (input : LogInput) (l : string) :
  weight l (batch_counts (e1 ++ e2)) =
    (weight l (batch_counts e1) + weight l (batch_counts e2))%nat /\
  (forall e3, Permutation e1 e3 -> weight l (batch_counts e1) = weight l (batch_counts e3)) /\
  batch_counts [input] = [mkLevelCount (in_level input) 1] /\
  batch_counts [] = [].
Proof.
  split; [|split; [|split; reflexivity]].
  - rewrite !weight_batch_counts. apply occurrences_app.
  - intros e3 Hperm. rewrite !weight_batch_counts. unfold occurrences.
    apply Permutation_length. induction Hperm; cbn [List.filter].
    + reflexivity.
    + destruct (String.eqb (in_level x) l); [now constructor|assumption].
    + destruct (String.eqb (in_level x) l), (String.eqb (in_level y) l);
        try reflexivity. apply perm_swap.
    + etransitivity; eassumption.
Qed.

End FurtherProperties.

(** ** Registration, and the statistics of the RPC entrypoint *)

Lemma truthy_Some (s : option string) (a : string) : truthy s = Some a -> s = Some a.
Proof.
  destruct s as [s|]; cbn; [|discriminate].
  destruct (String.eqb s ""); [discriminate|]. congruence.
Qed.

Section Scripts.

Context {W : Type}.

Lemma play_post_apps (perform : forall c : RegistryCall, W -> Outcome (RegistryAnswer c) * W)
    (env : Env) (body : RegisterBody) (w : W) :
  play perform (post_apps env body) w =
  if LOGS_KV env then
    match truthy (r_app_id body), truthy (r_name body) with
    | Some a, Some n =>
        match perform (RegisterApp a n (r_health_urls body)) w with
        | (Fulfilled (Ok data), w1) =>
            (Returned (mkReply 201 (Ok data)), w1, [RegisterApp a n (r_health_urls body)])
        | (Fulfilled (Err code msg), w1) =>
            (Returned (mkReply 500 (Err code msg)), w1,
             [RegisterApp a n (r_health_urls body)])
        | (Rejected, w1) => (Thrown, w1, [RegisterApp a n (r_health_urls body)])
        end
    | _, _ =>
        (Returned
           (mkReply 400
              (Err BAD_REQUEST
                 (dquote +:+ "app_id" +:+ dquote +:+ " and " +:+ dquote +:+ "name"
                    +:+ dquote +:+ " required"))),
         w, [])
    end
  else (Returned (mkReply 500 (Err INTERNAL_ERROR "KV namespace not configured")), w, []).
Proof.
  unfold post_apps. destruct (LOGS_KV env); cbn [negb]; [|reflexivity].
  destruct (truthy (r_app_id body)) as [a|]; [|reflexivity].
  destruct (truthy (r_name body)) as [n|]; [|reflexivity].
  cbn [play mbind Script_bind script_bind ask].
  change (perform (RegisterApp a n (r_health_urls body)) w)
    with (perform (RegisterApp a n (r_health_urls body)) w
          : Outcome (Result AppObject) * W).
  destruct (perform (RegisterApp a n (r_health_urls body)) w) as [[[data|c m]|] w1];
    reflexivity.
Qed.

(** X15. [POST /apps] answers 500 without any call when the KV namespace is
    not bound, whatever the body; otherwise 400 without any call when the id
    or the name of the body is missing or empty; otherwise it calls the
    registry exactly once, with the id, the name and the health URLs of the
    body, and answers 201 with the registration as the registry returned it,
    500 with the error the registry returned, or throws when the call is
    rejected.  The registry is never called with an empty id or name. *)
Theorem registration_needs_id_and_name
    (perform : forall c : RegistryCall, W -> Outcome (RegistryAnswer c) * W)
    (env : Env) (body : RegisterBody) (w : W) :
  let r := play perform (post_apps env body) w in
  (LOGS_KV env = false ->
   r = (Returned (mkReply 500 (Err INTERNAL_ERROR "KV namespace not configured")), w, [])) /\
  (LOGS_KV env = true ->
   truthy (r_app_id body) = None \/ truthy (r_name body) = None ->
   asked r = [] /\
   exists msg, played r = Returned (mkReply 400 (Err BAD_REQUEST msg))) /\
  (forall a n,
     LOGS_KV env = true ->
     truthy (r_app_id body) = Some a -> truthy (r_name body) = Some n ->
     let call := RegisterApp a n (r_health_urls body) in
     asked r = [call] /\
     played r =
       match fst (perform call w) with
       | Fulfilled (Ok data) => Returned (mkReply 201 (Ok data))
       | Fulfilled (Err code msg) => Returned (mkReply 500 (Err code msg))
       | Rejected => Thrown
       end) /\
  (forall a n h, RegisterApp a n h ∈ asked r ->
     a <> "" /\ n <> "" /\ r_app_id body = Some a /\ r_name body = Some n).
Proof.
  intros r. subst r. rewrite play_post_apps. unfold asked, played.
  split; [|split; [|split]].
  - intros ->. reflexivity.
  - intros -> [Ha|Hn].
    + rewrite Ha. cbn [fst snd]. split; [reflexivity|]. eexists; reflexivity.
    + rewrite Hn. destruct (truthy (r_app_id body));
        cbn [fst snd]; (split; [reflexivity|]); eexists; reflexivity.
  - intros a n Hkv Ha Hn. cbv zeta. rewrite Hkv, Ha, Hn.
    destruct (perform (RegisterApp a n (r_health_urls body)) w) as [[[data|c m]|] w1];
      cbn [fst snd]; split; reflexivity.
  - intros a n h. destruct (LOGS_KV env); [|intros Hin; inversion Hin].
    destruct (truthy (r_app_id body)) as [a'|] eqn:Ha; [|intros Hin; inversion Hin].
    destruct (truthy (r_name body)) as [n'|] eqn:Hn; [|intros Hin; inversion Hin].
    assert (Hone : RegisterApp a n h ∈ [RegisterApp a' n' (r_health_urls body)] ->
                   a <> "" /\ n <> "" /\ r_app_id body = Some a /\ r_name body = Some n).
    { intros Hin. apply list_elem_of_singleton in Hin. inversion Hin; subst.
      repeat split; eauto using truthy_nonempty, truthy_Some. }
    destruct (perform (RegisterApp a' n' (r_health_urls body)) w) as [[[data|c m]|] w1];
      cbn [fst snd]; exact Hone.
Qed.

Context {DailyStats : Type}.

Lemma play_rpc_getStats
    (perform : forall c : StatsCall, W -> Outcome (StatsAnswer DailyStats c) * W)
    (env : Env) (appId : string) (days : option JS.number) (w : W) :
  play perform (rpc_getStats env appId days) w =
  if LOGS_KV env then
    match perform (GetStatsRange appId (default (JS.Num 7) days)) w with
    | (Fulfilled (Ok data), w1) =>
        (Returned data, w1, [GetStatsRange appId (default (JS.Num 7) days)])
    | (Fulfilled (Err code msg), w1) =>
        (Returned [], w1, [GetStatsRange appId (default (JS.Num 7) days)])
    | (Rejected, w1) => (Thrown, w1, [GetStatsRange appId (default (JS.Num 7) days)])
    end
  else (Returned [], w, []).
Proof.
  unfold rpc_getStats. cbv zeta. destruct (LOGS_KV env); cbn [negb]; [|reflexivity].
  cbn [play mbind Script_bind script_bind ask].
  change (perform (GetStatsRange appId (default (JS.Num 7) days)) w)
    with (perform (GetStatsRange appId (default (JS.Num 7) days)) w
          : Outcome (Result (list DailyStats)) * W).
  destruct (perform (GetStatsRange appId (default (JS.Num 7) days)) w)
    as [[[data|c m]|] w1]; reflexivity.
Qed.

(** X16. [LogsRPC.getStats] asks for the statistics of 7 days when the
    caller gives no number, makes no call when the KV namespace is not bound,
    and answers the empty list in that case and when the statistics service
    answers an error; it throws only when the call is rejected. *)
Theorem rpc_statistics_degrade_to_empty
    (perform : forall c : StatsCall, W -> Outcome (StatsAnswer DailyStats c) * W)
    (env : Env) (appId : string) (days : option JS.number) (w : W) :
  let r := play perform (rpc_getStats env appId days) w in
  let call := GetStatsRange appId (default (JS.Num 7) days) in
  asked r = (if LOGS_KV env then [call] else []) /\
  (forall data, played r = Returned data ->
     data = [] \/ (LOGS_KV env = true /\ fst (perform call w) = Fulfilled (Ok data))) /\
  (played r = Thrown <-> LOGS_KV env = true /\ fst (perform call w) = Rejected) /\
  (forall code msg,
     LOGS_KV env = true -> fst (perform call w) = Fulfilled (Err code msg) ->
     played r = Returned []) /\
  (LOGS_KV env = false -> r = (Returned [], w, [])).
Proof.
  intros r call. subst r. rewrite play_rpc_getStats. fold call. unfold asked, played.
  destruct (LOGS_KV env).
  2:{ cbn [fst snd]. split; [reflexivity|]. split; [intros data [= <-]; now left|].
      split; [split; [discriminate|intros [Hc _]; discriminate Hc]|].
      split; [discriminate|reflexivity]. }
  destruct (perform call w) as [[[data|c m]|] w1]; cbn [fst snd].
  - split; [reflexivity|]. split; [intros d [= <-]; now right|].
    split; [split; [discriminate|intros [_ Hc]; discriminate Hc]|].
    split; [intros code msg _ Hc; discriminate Hc|discriminate].
  - split; [reflexivity|]. split; [intros d [= <-]; now left|].
    split; [split; [discriminate|intros [_ Hc]; discriminate Hc]|].
    split; [reflexivity|discriminate].
  - split; [reflexivity|]. split; [intros d Hc; discriminate Hc|].
    split; [split; [auto|reflexivity]|].
    split; [intros code msg _ Hc; discriminate Hc|discriminate].
Qed.

End Scripts.



(** ** The properties at concrete inputs *)

Import Sample.

#[local] Existing Instance platform.



(** *** The aggregated query *)




(** The page of that query: the 12 newest of the 15 entries. *)
Example aggregate_10_5_12 :
  completion (run two_listed (get_logs (mkEnv true) None None query12) tt) =
  Returned
    (mkResponse 200
       (OkLogs
          [tag "A" (at_second 18); tag "A" (at_second 16); tag "A" (at_second 14);
           tag "A" (at_second 12); tag "A" (at_second 10); tag "B" (at_second 9);
           tag "A" (at_second 8); tag "B" (at_second 7); tag "A" (at_second 6);
           tag "B" (at_second 5); tag "A" (at_second 4); tag "B" (at_second 3)])).
Proof. vm_compute. reflexivity. Qed.


(** An app that does not answer leaves the query a success: the page holds
    the fifteen entries of the two apps that answer. *)
Lemma aggregate_survives_a_failing_app :
  truthy None ∪ truthy None = None /\
  (failed
     (completion
        (run three_listed (get_logs (mkEnv true) None None query25) tt)) =
   true <->
   registry_lists three_listed (mkEnv true) tt = None) /\
  completion (run three_listed (get_logs (mkEnv true) None None query25) tt) =
    Returned
      (mkResponse 200
         (OkLogs
            (map (fun p => tag (fst p) (at_second (snd p)))
               [("A", 18); ("A", 16); ("A", 14); ("A", 12); ("A", 10); ("B", 9);
                ("A", 8); ("B", 7); ("A", 6); ("B", 5); ("A", 4); ("B", 3);
                ("A", 2); ("B", 1); ("A", 0)]%nat))) /\
  contribution_of "C" (fst (three_listed (StubFetch "C" (GetLogs [])) tt)) = [].
Proof.
  assert (H1 : truthy None ∪ truthy None = None) by reflexivity.
  destruct (aggregate_fails_only_with_registry three_listed (mkEnv true)
              None None query25 tt H1) as (Hiff & Hpage & _ & Hrej & _).
  split; [exact H1|]. split; [exact Hiff|]. split; [|apply Hrej].
  rewrite (Hpage ["A"; "B"; "C"] eq_refl). vm_compute. reflexivity.
Defined.

(** [limit=abc]: the page is empty although the apps hold fifteen entries. *)
Lemma unparsable_limit_at_abc :
  truthy None ∪ truthy None = None /\
  JS.has "limit" query_abc = true /\
  JS.parseInt (default "" (JS.get "limit" query_abc)) = JS.NaN /\
  registry_lists two_listed (mkEnv true) tt = Some ["A"; "B"] /\
  completion (run two_listed (get_logs (mkEnv true) None None query_abc) tt) =
    Returned (mkResponse 200 (OkLogs [])).
Proof.
  assert (H1 : truthy None ∪ truthy None = None) by reflexivity.
  assert (H2 : JS.has "limit" query_abc = true) by reflexivity.
  assert (H3 : JS.parseInt (default "" (JS.get "limit" query_abc)) = JS.NaN)
    by reflexivity.
  assert (H4 : registry_lists two_listed (mkEnv true) tt = Some ["A"; "B"]) by reflexivity.
  destruct (unparsable_limit_gives_empty_page two_listed (mkEnv true)
              None None query_abc ["A"; "B"] tt H1 H2 H3 H4) as (Hdone & _).
  repeat split; assumption.
Defined.

(** *** Keys and secrets *)

(** The key of A used on the paths of B. *)
Lemma key_of_A_on_paths_of_B :
  "A" <> "" /\
  "B" <> "A" /\
  run two_listed (get_stats "B" (Some "A") (Some "30")) tt =
    (Returned (mkResponse 403 (Failed UNAUTHORIZED "App ID mismatch")), tt, []) /\
  run two_listed (post_prune "B" (Some "A") (Some "2026-01-01T00:00:00.000Z")) tt =
    (Returned (mkResponse 403 (Failed UNAUTHORIZED "App ID mismatch")), tt, []) /\
  run two_listed (delete_app (mkEnv true) "B" (Some "A")) tt =
    (Returned (mkResponse 403 (Failed UNAUTHORIZED "App ID mismatch")), tt, []).
Proof.
  assert (H1 : "A" <> "") by discriminate.
  assert (H2 : "B" <> "A") by discriminate.
  destruct (tenant_key_cannot_reach_other_app two_listed (mkEnv true) "A" "B"
              (Some "30") (Some "2026-01-01T00:00:00.000Z") (Some []) tt H1 H2)
    as (Hstats & Hprune & _ & _ & Hdelete).
  repeat split; assumption.
Defined.

Lemma registration_differs_in_key_only (key1 key2 k : string) :
  k <> "api_key" -> registration key1 !! k = registration key2 !! k.
Proof.
  intros Hk. unfold registration. rewrite !lookup_insert.
  repeat (case_decide; [reflexivity || congruence|]). reflexivity.
Qed.

(** Two registrations of A with different keys are shown alike. *)
Lemma details_of_A_under_two_keys :
  fst (keyed_registry (KV (GetApp "A")) "key-1") =
    Fulfilled (Ok (Some (registration "key-1"))) /\
  fst (keyed_registry (KV (GetApp "A")) "key-2") =
    Fulfilled (Ok (Some (registration "key-2"))) /\
  (forall k, k <> "api_key" -> registration "key-1" !! k = registration "key-2" !! k) /\
  completion (run keyed_registry (get_app (mkEnv true) "A" (Some "A")) "key-1") =
    completion (run keyed_registry (get_app (mkEnv true) "A" (Some "A")) "key-2").
Proof.
  assert (H1 : fst (keyed_registry (KV (GetApp "A")) "key-1") =
               Fulfilled (Ok (Some (registration "key-1")))) by reflexivity.
  assert (H2 : fst (keyed_registry (KV (GetApp "A")) "key-2") =
               Fulfilled (Ok (Some (registration "key-2")))) by reflexivity.
  pose proof (registration_differs_in_key_only "key-1" "key-2") as H3.
  destruct (app_details_hide_api_key keyed_registry (mkEnv true) "A" (Some "A")
              (registration "key-1") (registration "key-2") "key-1" "key-2" H1 H2 H3)
    as (Hsame & _).
  repeat split; assumption.
Defined.

(** *** Writes *)

(** A batch of two INFO and one ERROR: two counts, one increment call. *)
Lemma batch_of_three_is_counted_once :
  accepted (fst (two_listed (StubFetch (getAppDO "A") (PostLogs batch3)) tt)) = true /\
  LOGS_KV (mkEnv true) = true /\
  batch_counts batch3 = [mkLevelCount "INFO" 2; mkLevelCount "ERROR" 1] /\
  total (batch_counts batch3) = 3%nat /\
  calls (run two_listed (rpc_logBatch (mkEnv true) "A" batch3) tt) =
    [StubFetch "A" (PostLogs batch3);
     KV (IncrementStatsBatch "A" [mkLevelCount "INFO" 2; mkLevelCount "ERROR" 1])].
Proof.
  assert (H1 : accepted (fst (two_listed (StubFetch (getAppDO "A") (PostLogs batch3)) tt))
               = true) by reflexivity.
  assert (H2 : LOGS_KV (mkEnv true) = true) by reflexivity.
  destruct (batch_counts_one_per_level two_listed (mkEnv true) "A"
              batch3 tt H1 H2) as (_ & _ & _ & Htotal & Hrpc & _).
  repeat split; first [assumption | reflexivity].
Defined.

(** C5 as stated fails.  Through the RPC entrypoint of a worker without KV
    namespace the write is accepted and answered and the row is in the
    actor, and the entrypoint issued no increment.  Through the gateway,
    when the actor takes the write and answers the statistics request with a
    storage error, the caller is still answered with the success of the
    write.  Through the RPC entrypoint, when the increment of the KV
    statistics is rejected, the caller gets an exception although the actor
    accepted the write. *)
Lemma accepted_write_without_increment :
  (completion rpc_write_without_kv =
     Returned
       (Some (DEntry (mkLogEntry "row-0-0" "2026-01-01T00:00:00.000Z" "INFO" "hello"
                        None None))) /\
   calls rpc_write_without_kv = [StubFetch "shop" (PostLog hello)] /\
   map level (logs (actor_of (actors (final rpc_write_without_kv)) "shop")) = ["INFO"]) /\
  (fst (failing_stats (StubFetch "A" (PostStats (StatsLevel "INFO"))) tt) =
     Fulfilled (Err STORAGE_ERROR "disk full") /\
   calls http_write_with_failing_stats =
     [StubFetch "A" (PostLog hello); StubFetch "A" (PostStats (StatsLevel "INFO"))] /\
   completion http_write_with_failing_stats =
     Returned
       (mkResponse 200
          (Forwarded
             (Ok (DEntry (mkLogEntry "row-0-0" "2026-01-01T00:00:00.000Z" "INFO" "hello"
                            None None)))))) /\
  (accepted (fst (increments_rejected (StubFetch "A" (PostLog hello)) tt)) = true /\
   calls rpc_write_with_rejected_increment =
     [StubFetch "A" (PostLog hello); KV (IncrementStats "A" "INFO")] /\
   completion rpc_write_with_rejected_increment = Thrown).
Proof. repeat split; vm_compute; reflexivity. Qed.

(** *** Actors *)




Example prune_before_second_2 :
  completion
    (run perform_world (post_prune "A" (Some "A") (Some "2026-01-01T00:00:02.000Z"))
       stocked) =
    Returned (mkResponse 200 (Forwarded (Ok (DDeleted 1)))) /\
  logs (actor_of
          (actors
             (final
                (run perform_world
                   (post_prune "A" (Some "A") (Some "2026-01-01T00:00:02.000Z"))
                   stocked)))
          "A") =
    map at_second [2; 3]%nat.
Proof. split; vm_compute; reflexivity. Qed.

(** C7 as stated fails: a prune whose [before] does not parse is answered
    with HTTP status 200, which is no failure for the caller, with the
    validation error of the actor as its body; no row is deleted. *)
Lemma unparsable_before_is_answered_200 :
  parsable "yesterday" = false /\
  completion (run perform_world (post_prune "A" (Some "A") (Some "yesterday")) stocked) =
    Returned (mkResponse 200 (Forwarded (Err VALIDATION_ERROR "invalid before"))) /\
  failed
    (completion (run perform_world (post_prune "A" (Some "A") (Some "yesterday")) stocked)) =
    false /\
  logs (actor_of
          (actors (final (run perform_world (post_prune "A" (Some "A") (Some "yesterday"))
                            stocked)))
          "A") =
    map at_second [1; 2; 3]%nat.
Proof. repeat split; vm_compute; reflexivity. Qed.

Example prune_without_before :
  status
    (match completion (run perform_world (post_prune "A" (Some "A") None) stocked) with
     | Returned r => r
     | Thrown => mkResponse 500 (Failed INTERNAL_ERROR "")
     end) = 400 /\
  calls (run perform_world (post_prune "A" (Some "A") None) stocked) = [].
Proof. split; reflexivity. Qed.

Example parseInt_25px : JS.parseInt " 25px" = JS.Num 25.
Proof. reflexivity. Qed.

Example parseInt_minus_7 : JS.parseInt "-7" = JS.Num (-7).
Proof. reflexivity. Qed.

Example parseInt_hex : JS.parseInt_auto "0x1F" = JS.Num 31 /\ JS.parseInt "0x1F" = JS.Num 0.
Proof. split; reflexivity. Qed.

Example slice_negative : JS.slice0 [1; 2; 3] (JS.Num (-1)) = [1; 2].
Proof. reflexivity. Qed.

(** *** Further cases *)

Import Cases.

(** The key of A with the header of B: the logs of A are read. *)
Lemma key_of_A_with_header_of_B :
  truthy (Some "A") ∪ truthy (Some "B") = Some "A" /\
  calls (run two_listed (get_logs (mkEnv true) (Some "A") (Some "B") query25) tt) =
    [StubFetch "A" (GetLogs query25)] /\
  completion (run two_listed (get_logs (mkEnv true) (Some "A") (Some "B") query25) tt) =
    Returned (mkResponse 200 (Forwarded (Ok (DEntries logsA)))).
Proof.
  assert (H1 : truthy (Some "A") ∪ truthy (Some "B") = Some "A") by reflexivity.
  destruct (single_app_query_is_forwarded two_listed (mkEnv true) (Some "A") (Some "B")
              query25 "A" tt H1) as (Hcalls & Hdone & _).
  repeat split; assumption.
Defined.

(** Every entry of the page of A and B carries the id A or B. *)
Lemma page_of_A_and_B_is_theirs :
  truthy None ∪ truthy None = None /\
  registry_lists two_listed (mkEnv true) tt = Some ["A"; "B"] /\
  exists page rest : list AggregatedLogEntry,
    completion (run two_listed (get_logs (mkEnv true) None None query12) tt) =
      Returned (mkResponse 200 (OkLogs page)) /\
    JS.sort newest_first (merged_entries two_listed query12 ["A"; "B"] tt) =
      (page ++ rest)%list /\
    (forall x, x ∈ page -> app_id x ∈ ["A"; "B"]).
Proof.
  assert (H1 : truthy None ∪ truthy None = None) by reflexivity.
  assert (H2 : registry_lists two_listed (mkEnv true) tt = Some ["A"; "B"]) by reflexivity.
  destruct (aggregate_page_comes_from_listed_apps two_listed (mkEnv true)
              None None query12 ["A"; "B"] tt H1 H2)
    as (page & rest & Hdone & Hsorted & Hfrom).
  split; [exact H1|]. split; [exact H2|].
  exists page, rest. split; [exact Hdone|]. split; [exact Hsorted|].
  intros x Hx. exact (proj1 (Hfrom x Hx)).
Defined.

(** [limit=-1] with ten entries in A: A is asked for 10, one entry is
    dropped. *)
Lemma limit_minus_1_drops_one :
  truthy None ∪ truthy None = None /\
  registry_lists one_listed (mkEnv true) tt = Some ["A"] /\
  ["A"] <> [] /\
  globalLimit query_minus_1 = JS.Num (-1) /\
  -1 < 0 /\
  perAppLimit query_minus_1 ["A"] = JS.Num 10 /\
  exists page dropped : list AggregatedLogEntry,
    completion (run one_listed (get_logs (mkEnv true) None None query_minus_1) tt) =
      Returned (mkResponse 200 (OkLogs page)) /\
    length dropped = 1%nat.
Proof.
  assert (H1 : truthy None ∪ truthy None = None) by reflexivity.
  assert (H2 : registry_lists one_listed (mkEnv true) tt = Some ["A"]) by reflexivity.
  assert (H3 : ["A"] <> []) by discriminate.
  assert (H4 : globalLimit query_minus_1 = JS.Num (-1)) by reflexivity.
  assert (H5 : -1 < 0) by lia.
  destruct (negative_limit_drops_the_oldest one_listed (mkEnv true)
              None None query_minus_1 ["A"] (-1) tt H1 H2 H3 H4 H5)
    as (Hper & page & dropped & Hdone & _ & Hlen).
  repeat split; try assumption.
  exists page, dropped. split; [exact Hdone|exact Hlen].
Defined.

Lemma lexical_refl (s : string) : lexical s s <= 0.
Proof.
  unfold lexical. destruct (String.compare s s) eqn:Hc; try lia.
  pose proof (String.compare_antisym s s) as Ha. rewrite Hc in Ha. discriminate Ha.
Qed.

(** A and B both hold a log of second 5: the one of A comes first. *)
Lemma tie_of_A_and_B_at_second_5 :
  truthy None ∪ truthy None = None /\
  registry_lists ties_listed (mkEnv true) tt = Some ["A"; "B"] /\
  (forall x, x ∈ merged_entries ties_listed [] ["A"; "B"] tt ->
     lexical (timestamp (entry x)) (timestamp (entry x)) <= 0) /\
  exists page rest : list AggregatedLogEntry,
    completion (run ties_listed (get_logs (mkEnv true) None None []) tt) =
      Returned (mkResponse 200 (OkLogs page)) /\
    (at_time "2026-01-01T00:00:05.000Z" page ++
     at_time "2026-01-01T00:00:05.000Z" rest)%list =
    [tag "A" (at_second 5); tag "B" (at_second 5)].
Proof.
  assert (H1 : truthy None ∪ truthy None = None) by reflexivity.
  assert (H2 : registry_lists ties_listed (mkEnv true) tt = Some ["A"; "B"]) by reflexivity.
  assert (H3 : forall x, x ∈ merged_entries ties_listed [] ["A"; "B"] tt ->
                 lexical (timestamp (entry x)) (timestamp (entry x)) <= 0)
    by (intros x _; apply lexical_refl).
  destruct (equal_timestamps_keep_listing_order ties_listed (mkEnv true)
              None None [] ["A"; "B"] tt H1 H2 H3) as (page & rest & Hdone & Hties).
  split; [exact H1|]. split; [exact H2|]. split; [exact H3|].
  exists page, rest. split; [exact Hdone|].
  rewrite (Hties "2026-01-01T00:00:05.000Z"). reflexivity.
Defined.

(** The page of that query. *)
Example tie_page :
  completion (run ties_listed (get_logs (mkEnv true) None None []) tt) =
  Returned
    (mkResponse 200
       (OkLogs [tag "A" (at_second 5); tag "B" (at_second 5); tag "A" (at_second 3)])).
Proof. vm_compute. reflexivity. Qed.

(** A limit of 25 over three apps is written as [limit=10] and reads back
    as 10. *)
Lemma limit_25_over_three_reads_back :
  ["A"; "B"; "C"] <> [] /\
  safe_number (globalLimit query25) /\
  JS.get "limit" (perAppParams query25 ["A"; "B"; "C"]) = Some "10" /\
  globalLimit (perAppParams query25 ["A"; "B"; "C"]) = JS.Num 10.
Proof.
  assert (H1 : ["A"; "B"; "C"] <> []) by discriminate.
  assert (H2 : safe_number (globalLimit query25))
    by (change (Z.abs 25 <= 9007199254740991); lia).
  destruct (per_app_limit_reads_back query25 ["A"; "B"; "C"] H1 H2)
    as (_ & Hget & Hback & _).
  split; [exact H1|]. split; [exact H2|]. split; [exact Hget|exact Hback].
Defined.

(** The listing of three apps, and the aggregated query over them. *)
Lemma listing_of_three_apps :
  truthy None ∪ truthy None = None /\
  completion (run three_listed (get_apps (mkEnv true)) tt) =
    Returned (mkReply 200 (Ok ["A"; "B"; "C"])) /\
  calls (run three_listed (get_logs (mkEnv true) None None query25) tt) =
    KV ListApps :: map (app_request (perAppParams query25 ["A"; "B"; "C"])) ["A"; "B"; "C"].
Proof.
  assert (H1 : truthy None ∪ truthy None = None) by reflexivity.
  destruct (listing_and_aggregate_read_the_registry_alike three_listed (mkEnv true)
              None None query25 tt H1) as (_ & Hquery & _).
  assert (H2 : completion (run three_listed (get_apps (mkEnv true)) tt) =
               Returned (mkReply 200 (Ok ["A"; "B"; "C"]))) by reflexivity.
  split; [exact H1|]. split; [exact H2|]. exact (proj1 (Hquery _ H2)).
Defined.

(** A write of A, through the gateway and through the RPC entrypoint, leaves
    the actor of B empty. *)
Lemma write_of_A_leaves_B :
  "B" <> getAppDO "A" /\
  actor_of (actors (final (run perform_world (post_logs "A" (Single hello)) world0))) "B" =
    empty_actor /\
  actor_of (actors (final (run perform_world (rpc_logBatch (mkEnv true) "A" batch3) world0)))
    "B" = empty_actor.
Proof.
  assert (H1 : "B" <> getAppDO "A") by discriminate.
  destruct (writes_stay_in_their_actor (P := platform) (mkEnv true) "A" (Single hello) hello
              batch3 world0 "B" H1) as (Hhttp & _ & _ & Hbatch).
  split; [exact H1|]. split; [exact Hhttp|exact Hbatch].
Defined.

(** *** The routes and methods without a claim, at concrete inputs *)

Example query_of_recent_errors :
  query_params (Some recent_errors) =
    [("level", "ERROR"); ("since", "2026-01-01T00:00:00.000Z"); ("offset", "20")] /\
  query_params None = [] /\
  run all_refused (rpc_query "A" (Some recent_errors)) tt =
    (Returned None, tt, [StubFetch "A" (GetLogs (query_params (Some recent_errors)))]).
Proof. repeat split; reflexivity. Qed.

Example query_of_a_fractional_limit :
  query_params (Some fractional_limit) = [("limit", "1.5")] /\
  JS.parseInt "1.5" = JS.Num 1.
Proof. split; reflexivity. Qed.

Example registration_without_name :
  play registrar (post_apps (mkEnv true) (mkRegisterBody (Some "shop") (Some "") None)) tt =
    (Returned
       (mkReply 400
          (Err BAD_REQUEST
             (dquote +:+ "app_id" +:+ dquote +:+ " and " +:+ dquote +:+ "name" +:+ dquote
                +:+ " required"))),
     tt, []) /\
  asked (play registrar
           (post_apps (mkEnv true) (mkRegisterBody (Some "shop") (Some "Shop") None)) tt) =
    [RegisterApp "shop" "Shop" None] /\
  reply_status
    (match played (play registrar
                     (post_apps (mkEnv true)
                        (mkRegisterBody (Some "shop") (Some "Shop") None)) tt) with
     | Returned r => r
     | Thrown => mkReply 500 (Err INTERNAL_ERROR "")
     end) = 201.
Proof. repeat split; reflexivity. Qed.

Example statistics_when_the_service_is_down :
  play stats_down (rpc_getStats (mkEnv true) "A" None) tt =
    (Returned [], tt, [GetStatsRange "A" (JS.Num 7)]) /\
  play stats_down (rpc_getStats (mkEnv false) "A" (Some (JS.Num 30))) tt =
    (Returned [], tt, []).
Proof. split; reflexivity. Qed.

Example deleted_app_is_still_read :
  completion
    (run perform_world (get_logs (mkEnv true) None (Some "A") [])
       (final (run perform_world (delete_app (mkEnv true) "A" None) stocked))) =
  Returned (mkResponse 200 (Forwarded (Ok (DEntries (map at_second [1; 2; 3]%nat))))).
Proof. vm_compute. reflexivity. Qed.
